(** * count-primes: a deterministic Miller-Rabin primality test on 32-bit
    unsigned integers and a range counter (primes.c).

    The C functions are embedded as Rocq functions over [Z].  Fixed-width
    arithmetic is written out: a value stored in a [u32] is reduced modulo
    2^32, a product computed in [u64] modulo 2^64.  Operations whose
    behaviour C leaves undefined (a remainder by zero, the trailing-zero
    count of zero) and loops that exhaust their fuel produce a [Fault]. *)

From Stdlib Require Import ZArith List Bool Lia Uint63.
From Stdlib Require ZmodInv.
Import ListNotations.
Local Open Scope Z_scope.

(** ** Machine integers *)

Definition u32 (x : Z) : Z := x mod 2 ^ 32.
Definition u64 (x : Z) : Z := x mod 2 ^ 64.

Definition in_u32 (x : Z) : Prop := 0 <= x < 2 ^ 32.

(** ** Outcomes of a C computation *)

Inductive fault : Set :=
| DivByZero   (* x % 0 *)
| CtzOfZero   (* __builtin_ctzl(0) *)
| OutOfFuel.  (* a loop of the model ran longer than its fuel *)

Inductive outcome (A : Type) : Type :=
| Ok (a : A)
| Fault (f : fault).

Arguments Ok {A} a.
Arguments Fault {A} f.

Definition bind {A B : Type} (r : outcome A) (k : A -> outcome B) : outcome B :=
  match r with
  | Ok a => k a
  | Fault f => Fault f
  end.

Notation "x <- r ;; k" := (bind r (fun x => k))
  (at level 61, r at next level, right associativity).

(** [x % y] on unsigned operands. *)
Definition umod (x y : Z) : outcome Z :=
  if y =? 0 then Fault DivByZero else Ok (x mod y).

(** [(u64)x * y % m], stored in a [u32]. *)
Definition mulmod (x y m : Z) : outcome Z :=
  r <- umod (u64 (x * y)) m ;;
  Ok (u32 r).

(** ** powmod *)

Fixpoint powmod_loop (fuel : nat) (power result exponent m : Z) : outcome Z :=
  match fuel with
  | O => Fault OutOfFuel
  | S fuel' =>
      if exponent =? 0 then Ok result
      else
        result' <- (if Z.land exponent 1 =? 0 then Ok result
                    else mulmod result power m) ;;
        power' <- mulmod power power m ;;
        powmod_loop fuel' power' result' (Z.shiftr exponent 1) m
  end.

(** The exponent is a [u32]: the loop body runs at most 32 times. *)
Definition powmod_fuel : nat := 33.

Definition powmod (base exponent m : Z) : outcome Z :=
  power <- umod base m ;;
  powmod_loop powmod_fuel power 1 exponent m.

(** ** __builtin_ctzl

    The compiler primitive, as GCC documents it: the number of trailing
    0-bits of its argument, starting at the least significant bit;
    undefined on 0.  ([ctz_pos_testbit] relates it to [Z.testbit].) *)

Fixpoint ctz_pos (p : positive) : Z :=
  match p with
  | xO q => 1 + ctz_pos q
  | _ => 0
  end.

Definition builtin_ctzl (x : Z) : outcome Z :=
  match x with
  | Zpos p => Ok (ctz_pos p)
  | _ => Fault CtzOfZero
  end.

(** ** is_strong_probable_prime *)

(** The [for (i = 0; i < e; ++i)] loop, by the number of iterations left. *)
Fixpoint sprp_loop (iters : nat) (power n : Z) : outcome bool :=
  match iters with
  | O => Ok false
  | S k =>
      if power =? u32 (n - 1) then Ok true
      else
        power' <- mulmod power power n ;;
        sprp_loop k power' n
  end.

Definition is_strong_probable_prime (base n : Z) : outcome bool :=
  if n <=? 2 then Ok (n =? 2)
  else if Z.land n 1 =? 0 then Ok false
  else
    r <- umod n base ;;
    if r =? 0 then Ok (n =? base)
    else
      e <- builtin_ctzl (u32 (n - 1)) ;;
      power <- powmod base (Z.shiftr (u32 (n - 1)) e) n ;;
      if power =? 1 then Ok true
      else sprp_loop (Z.to_nat e) power n.

(** ** is_prime *)

(** The trial-division loop [for (i = 3; i <= 61; i += 2)]:
    [Some b] is an early [return b], [None] falls out of the loop. *)
Fixpoint trial_loop (fuel : nat) (i n : Z) : outcome (option bool) :=
  match fuel with
  | O => Fault OutOfFuel
  | S fuel' =>
      if i <=? 61 then
        if n =? i then Ok (Some true)
        else
          r <- umod n i ;;
          if r =? 0 then Ok (Some false)
          else trial_loop fuel' (u32 (i + 2)) n
      else Ok None
  end.

Definition trial_fuel : nat := 31.

Definition is_prime (n : Z) : outcome bool :=
  if n <=? 2 then Ok (n =? 2)
  else if Z.land n 1 =? 0 then Ok false
  else
    t <- trial_loop trial_fuel 3 n ;;
    match t with
    | Some b => Ok b
    | None =>
        b2 <- is_strong_probable_prime 2 n ;;
        if b2 then
          b7 <- is_strong_probable_prime 7 n ;;
          if b7 then is_strong_probable_prime 61 n else Ok false
        else Ok false
    end.

(** ** main, with the bounds LO and HI as parameters *)

Fixpoint count_loop (fuel : nat) (i hi count : Z) : outcome Z :=
  match fuel with
  | O => Fault OutOfFuel
  | S fuel' =>
      if i <? hi then
        b <- is_prime i ;;
        count_loop fuel' (u32 (i + 1)) hi (u32 (count + Z.b2z b))
      else Ok count
  end.

Definition count_primes (fuel : nat) (lo hi : Z) : outcome Z :=
  b <- (if lo <=? hi then is_prime hi else Ok false) ;;
  count_loop fuel lo hi (Z.b2z b).

(** ** main, with the bounds of the two macros

    The value [main] passes to [printf]. *)

Definition LO : Z := 0.
Definition HI : Z := 100000000.

Definition main (fuel : nat) : outcome Z := count_primes fuel LO HI.

(** ** The multiplications a call performs

    Ghost functions that follow the control flow of the functions above and
    list, in program order, the operands [(x, y, m)] of every
    [(u64)x * y % m] that is evaluated. *)

Definition mult : Type := (Z * Z * Z)%type.

Fixpoint powmod_loop_mults (fuel : nat) (power result exponent m : Z) : list mult :=
  match fuel with
  | O => []
  | S fuel' =>
      if exponent =? 0 then []
      else
        let odd := negb (Z.land exponent 1 =? 0) in
        let first := if odd then [(result, power, m)] else [] in
        match (if odd then mulmod result power m else Ok result),
              mulmod power power m with
        | Ok result', Ok power' =>
            first ++ (power, power, m)
                  :: powmod_loop_mults fuel' power' result' (Z.shiftr exponent 1) m
        | Ok _, Fault _ => first ++ [(power, power, m)]
        | Fault _, _ => first
        end
  end.

Definition powmod_mults (base exponent m : Z) : list mult :=
  match umod base m with
  | Ok power => powmod_loop_mults powmod_fuel power 1 exponent m
  | Fault _ => []
  end.

Fixpoint sprp_loop_mults (iters : nat) (power n : Z) : list mult :=
  match iters with
  | O => []
  | S k =>
      if power =? u32 (n - 1) then []
      else
        (power, power, n)
          :: match mulmod power power n with
             | Ok power' => sprp_loop_mults k power' n
             | Fault _ => []
             end
  end.

(** The multiplications of the squaring loop of
    [is_strong_probable_prime base n] (empty when the loop is not reached). *)
Definition squaring_mults (base n : Z) : list mult :=
  if n <=? 2 then []
  else if Z.land n 1 =? 0 then []
  else
    match umod n base with
    | Ok r =>
        if r =? 0 then []
        else
          match builtin_ctzl (u32 (n - 1)) with
          | Ok e =>
              match powmod base (Z.shiftr (u32 (n - 1)) e) n with
              | Ok power =>
                  if power =? 1 then [] else sprp_loop_mults (Z.to_nat e) power n
              | Fault _ => []
              end
          | Fault _ => []
          end
    | Fault _ => []
    end.

(** The states [(power, result)] of [powmod] at each evaluation of its
    loop condition, in program order. *)
Fixpoint powmod_loop_states (fuel : nat) (power result exponent m : Z)
  : list (Z * Z) :=
  match fuel with
  | O => []
  | S fuel' =>
      (power, result)
        :: if exponent =? 0 then []
           else
             match (if Z.land exponent 1 =? 0 then Ok result
                    else mulmod result power m),
                   mulmod power power m with
             | Ok result', Ok power' =>
                 powmod_loop_states fuel' power' result' (Z.shiftr exponent 1) m
             | _, _ => []
             end
  end.

Definition powmod_states (base exponent m : Z) : list (Z * Z) :=
  match umod base m with
  | Ok power => powmod_loop_states powmod_fuel power 1 exponent m
  | Fault _ => []
  end.

(** A multiplication as the specification wants it: both operands below
    the modulus, the product within 64 bits, the result exact. *)
Definition mult_ok (ev : mult) : Prop :=
  let '(x, y, m) := ev in
  0 <= x < m /\ 0 <= y < m /\ m <= 2 ^ 32 - 1 /\
  x * y <= 2 ^ 64 - 1 /\ mulmod x y m = Ok ((x * y) mod m).

(** The same without the bound by the modulus: operands of 32 bits. *)
Definition mult_fits (ev : mult) : Prop :=
  let '(x, y, m) := ev in
  0 <= x <= 2 ^ 32 - 1 /\ 0 <= y <= 2 ^ 32 - 1 /\
  x * y <= 2 ^ 64 - 1 /\ mulmod x y m = Ok ((x * y) mod m).

(** ** Specification-side notions *)

(** The strong-pseudoprime criterion for base [a], with [n - 1 = d * 2^e]. *)
Definition strong_criterion (a n d e : Z) : Prop :=
  a ^ d mod n = 1 \/ exists i, 0 <= i < e /\ a ^ (d * 2 ^ i) mod n = n - 1.

(** [N] is an exponent that sends [a] to 1 modulo [q]; and one that does
    so for each of the three witness bases of [is_prime]. *)
Definition unit_power (a q N : Z) : Prop := a ^ N mod q = 1.

Definition unit_power3 (q N : Z) : Prop :=
  unit_power 2 q N /\ unit_power 7 q N /\ unit_power 61 q N.

(** The state of the reduction of an exponent [k] of a set [P] while the
    cofactor [rest] remains to be factored: [k = u * w], where no prime
    factor of [u] can be removed from [k], and [w] divides [rest]. *)
Definition reduced (P : Z -> Prop) (k rest : Z) : Prop :=
  exists u w,
    k = u * w /\ 0 < u /\ 0 < w /\ (w | rest) /\
    forall r, Z.prime r -> (r | u) -> ~ P (k / r).

(** The entry [(q, L)] of the table of orders is usable: [L] divides
    [q - 1] and every exponent that sends 2, 7 and 61 to 1 modulo [q]. *)
Definition good_entry (q L : Z) : Prop :=
  0 < L /\ (L | q - 1) /\ forall N, 0 <= N -> unit_power3 q N -> (L | N).

(** Primality of a number below 64 by division by 2, ..., 7. *)
Definition small_primeb (n : Z) : bool :=
  (1 <? n) &&
  forallb (fun d => (n <=? d) || negb (n mod d =? 0)) [2; 3; 4; 5; 6; 7].

Definition outcome_is (r : outcome bool) (b : bool) : bool :=
  match r with
  | Ok b' => Bool.eqb b' b
  | Fault _ => false
  end.

(** The integers [lo, lo + 1, ..., lo + len - 1], and those of them that
    [is_prime] reports prime. *)
Definition zrange (lo : Z) (len : nat) : list Z :=
  map (fun k => lo + Z.of_nat k) (seq 0 len).

Definition prime_verdict (x : Z) : bool := outcome_is (is_prime x) true.

Definition primes_from (lo : Z) (len : nat) : list Z :=
  filter prime_verdict (zrange lo len).

(** [c] is the number of primes in the closed range [lo, hi]: the length
    of a duplicate-free list of exactly those primes. *)
Definition counts_primes (lo hi c : Z) : Prop :=
  exists l : list Z,
    NoDup l /\
    (forall x, In x l <-> lo <= x <= hi /\ Z.prime x) /\
    c = Z.of_nat (length l).

(** * The same functions on 63-bit machine integers, and a search

    [is_prime] has no false positive below 2^32.  To establish this the
    test is re-implemented on primitive integers (module [Fast]) and run
    over a set of candidates that provably contains every composite number
    the test could accept:

    - a composite [n] accepted by the test has no factor up to 61 and
      satisfies [a ^ (n - 1) = 1 (mod n)] for [a] in 2, 7, 61;
    - so for its least prime factor [q], the least common multiple [L] of
      the orders of 2, 7 and 61 modulo [q] divides [n - 1], and [n / q] is
      congruent to 1 modulo [L];
    - if [n / q] is prime, then [2 ^ (q - 1) = 1 (mod n / q)] ([checkA]);
    - otherwise [n / q] has a least prime factor [q2 >= q] with
      [q * q2 * q2 <= n], and [n] lies in an arithmetic progression
      determined by the pair ([checkB]). *)

Module Fast.
Local Open Scope uint63_scope.

(** ** Bounded iteration with early exit *)

Inductive step (St : Type) : Type :=
| Next (s : St)
| Stop (b : bool).

Arguments Next {St} s.
Arguments Stop {St} b.

Section Iterate.
Context {St : Type} (body : St -> step St).

(** Runs [body] up to [2 ^ d] times. *)
Fixpoint iterate (d : nat) (s : St) : step St :=
  match d with
  | O => body s
  | S d' =>
      match iterate d' s with
      | Next s' => iterate d' s'
      | Stop b => Stop b
      end
  end.
End Iterate.

(** [for (n = start; n <= last; n += stride) if (!P n) return false;
    return true] *)
Definition progression_body (P : int -> bool) (stride last n : int) : step int :=
  if n <=? last then if P n then Next (n + stride) else Stop false
  else Stop true.

Definition run_progression (d : nat) (P : int -> bool)
           (start stride last : int) : bool :=
  match iterate (progression_body P stride last) d start with
  | Stop b => b
  | Next _ => false
  end.

(** ** Modular exponentiation *)

(** [x * y % m] when the product fits in 63 bits. *)
Definition mulm (x y m : int) : int := (x * y) mod m.

(** [x * y % m] for operands below 2^32, by halves of [y]. *)
Definition mulmod (x y m : int) : int :=
  ((((x * (y >> 16)) mod m) << 16) + x * (y land 65535)) mod m.

Section PowLoop.
Variable mul : int -> int -> int -> int.

Fixpoint pow_loop (fuel : nat) (power result exponent m : int) : int :=
  match fuel with
  | O => result
  | S fuel' =>
      if exponent =? 0 then result
      else
        let result' :=
          if (exponent land 1) =? 0 then result else mul result power m in
        pow_loop fuel' (mul power power m) result' (exponent >> 1) m
  end.
End PowLoop.

Definition powm (base exponent m : int) : int :=
  pow_loop mulm powmod_fuel (base mod m) 1 exponent m.

Definition powmod (base exponent m : int) : int :=
  pow_loop mulmod powmod_fuel (base mod m) 1 exponent m.

(** [2 ^ k mod m] for [m] below 2^31. *)
Fixpoint pow2 (fuel : nat) (k m : int) : int :=
  match fuel with
  | O => (1 << k) mod m
  | S fuel' =>
      if k <=? 61 then (1 << k) mod m
      else
        let h := pow2 fuel' (k >> 1) m in
        let h2 := (h * h) mod m in
        if (k land 1) =? 0 then h2 else (2 * h2) mod m
  end.

(** ** The test itself *)

Fixpoint sprp_loop (fuel : nat) (left power n : int) : bool :=
  match fuel with
  | O => false
  | S fuel' =>
      if left =? 0 then false
      else if power =? n - 1 then true
      else sprp_loop fuel' (left - 1) (mulmod power power n) n
  end.

Definition is_strong_probable_prime (base n : int) : bool :=
  if n <=? 2 then n =? 2
  else if (n land 1) =? 0 then false
  else if n mod base =? 0 then n =? base
  else
    let e := tail0 (n - 1) in
    let power := powmod base ((n - 1) >> e) n in
    if power =? 1 then true else sprp_loop 64 e power n.

Fixpoint trial_loop (fuel : nat) (i n : int) : option bool :=
  match fuel with
  | O => None
  | S fuel' =>
      if i <=? 61 then
        if n =? i then Some true
        else if n mod i =? 0 then Some false
        else trial_loop fuel' (i + 2) n
      else None
  end.

Definition is_prime (n : int) : bool :=
  if n <=? 2 then n =? 2
  else if (n land 1) =? 0 then false
  else
    match trial_loop trial_fuel 3 n with
    | Some b => b
    | None =>
        if is_strong_probable_prime 2 n then
          if is_strong_probable_prime 7 n then is_strong_probable_prime 61 n
          else false
        else false
    end.

(** ** Orders modulo the small prime factors *)

(** [2 ^ k = 7 ^ k = 61 ^ k = 1 (mod q)] *)
Definition unit3 (q k : int) : bool :=
  (powm 2 k q =? 1) && (powm 7 k q =? 1) && (powm 61 k q =? 1).

(** Divides the exponent [k] by [d] when the quotient still works. *)
Definition shrink (q d k : int) : int :=
  if (k mod d =? 0) && unit3 q (k / d) then k / d else k.

(** Factors [rest] by trial division from [d] on, shrinking [k] by every
    prime factor found.  Returns 0 when out of fuel. *)
Fixpoint order_loop (fuel : nat) (q d k rest : int) : int :=
  match fuel with
  | O => 0
  | S fuel' =>
      if rest <? d * d then (if 1 <? rest then shrink q rest k else k)
      else if rest mod d =? 0 then order_loop fuel' q d (shrink q d k) (rest / d)
      else order_loop fuel' q (d + 1) k rest
  end.

Section Table.
Variable order_depth : nat.

(** The least [L > 0] with [unit3 q L], for a prime [q]. *)
Definition order3 (q : int) : int :=
  order_loop order_depth q 2 (q - 1) (q - 1).

(** The odd [q] from the given one up to 65535 that pass the Fermat test
    for the three bases, each with its order. *)
Fixpoint table_loop (fuel : nat) (q : int) : list (int * int) :=
  match fuel with
  | O => []
  | S fuel' =>
      if q <=? 65535 then
        if unit3 q (q - 1) then (q, order3 q) :: table_loop fuel' (q + 2)
        else table_loop fuel' (q + 2)
      else []
  end.
End Table.

Definition order_fuel : nat := 400.
Definition table_fuel : nat := Nat.pow 2 15.

Definition table : list (int * int) := table_loop order_fuel table_fuel 67.

(** ** The search *)

Definition max32 : int := 4294967295.

Section Search.
(** The progressions below have fewer than [2 ^ depth] terms. *)
Variable depth : nat.

(** Candidates [q * m] with [m = q, q + L, q + 2L, ...]: none with
    [2 ^ (q - 1) = 1 (mod m)] is accepted by the test. *)
Definition checkA (e : int * int) : bool :=
  let (q, L) := e in
  if L =? 0 then false
  else
    run_progression depth
      (fun m => if pow2 11 (q - 1) m =? 1 then negb (is_prime (q * m)) else true)
      q L (max32 / q).

(** Candidates [n = q2 * (1 + L2 * t)] with [q] dividing [1 + L2 * t]:
    none with [n - 1] divisible by [L] is accepted by the test. *)
Definition checkB (e1 e2 : int * int) : bool :=
  let (q, L) := e1 in
  let (q2, L2) := e2 in
  if q2 <? q then true
  else if max32 <? q * q2 * q2 then true
  else if L2 mod q =? 0 then true
  else
    let t0 := powm (q - L2 mod q) (q - 2) q in
    if (1 + L2 * t0) mod q =? 0 then
      run_progression depth
        (fun n => if (n - 1) mod L =? 0 then negb (is_prime n) else true)
        (q2 * (1 + L2 * t0)) (q * q2 * L2) max32
    else true.

Definition checkB_row (tbl : list (int * int)) (e1 : int * int) : bool :=
  if max32 <? fst e1 * fst e1 * fst e1 then true
  else forallb (checkB e1) tbl.

Definition check_table (tbl : list (int * int)) : bool :=
  forallb checkA tbl && forallb (checkB_row tbl) tbl.
End Search.

Definition search_depth : nat := 40.

End Fast.


(** * The model on concrete inputs *)

Example powmod_ex : powmod 2 10 1000 = Ok 24.
Proof. reflexivity. Qed.

Example powmod_zero_modulus_ex : powmod 2 10 0 = Fault DivByZero.
Proof. reflexivity. Qed.

Example sprp_pseudoprime_ex :
  is_strong_probable_prime 2 2047 = Ok true /\
  is_strong_probable_prime 7 2047 = Ok false.
Proof. split; vm_compute; reflexivity. Qed.

Example is_prime_ex :
  map is_prime [0; 1; 2; 3; 9; 61; 63; 67; 2047; 4294967291; 4294967295] =
  map Ok [false; false; true; true; false; true; false; true; false; true; false].
Proof. vm_compute. reflexivity. Qed.

Example count_primes_ex : count_primes 101 0 100 = Ok 25.
Proof. vm_compute. reflexivity. Qed.

Example count_primes_out_of_fuel_ex : count_primes 50 0 100 = Fault OutOfFuel.
Proof. vm_compute. reflexivity. Qed.

Example fast_is_prime_ex :
  map Fast.is_prime [0; 1; 2; 3; 9; 61; 63; 67; 2047; 4294967291; 4294967295]%uint63 =
  [false; false; true; true; false; true; false; true; false; true; false].
Proof. vm_compute. reflexivity. Qed.

Example table_head_ex :
  firstn 3 Fast.table = [(67, 66); (71, 70); (73, 72)]%uint63.
Proof. vm_compute. reflexivity. Qed.

(** * Machine arithmetic *)

Lemma u32_small (x : Z) : in_u32 x -> u32 x = x.
Proof. unfold in_u32, u32. intros H. apply Z.mod_small. exact H. Qed.

Lemma u64_small (x : Z) : 0 <= x < 2 ^ 64 -> u64 x = x.
Proof. unfold u64. intros H. apply Z.mod_small. exact H. Qed.

Lemma land_1_even (x : Z) : (Z.land x 1 =? 0) = Z.even x.
Proof.
  change 1 with (Z.ones 1) at 1. rewrite Z.land_ones by lia.
  change (2 ^ 1) with 2. rewrite Zeven_mod. reflexivity.
Qed.

Lemma shiftr_1_half (x : Z) : Z.shiftr x 1 = x / 2.
Proof. rewrite Z.shiftr_div_pow2 by lia. reflexivity. Qed.

(** A product of two 32-bit values fits in 64 bits. *)
Lemma mul_u32_fits (x y : Z) :
  in_u32 x -> in_u32 y -> 0 <= x * y <= 2 ^ 64 - 1.
Proof. unfold in_u32. intros Hx Hy. change (2 ^ 64) with (2 ^ 32 * 2 ^ 32). nia. Qed.

(** On 32-bit operands [mulmod] is exact modular multiplication. *)
Lemma mulmod_exact (x y m : Z) :
  in_u32 x -> in_u32 y -> 0 < m < 2 ^ 32 ->
  mulmod x y m = Ok ((x * y) mod m).
Proof.
  intros Hx Hy Hm. unfold mulmod, umod.
  destruct (Z.eqb_spec m 0) as [E | _]; [lia |]. cbn [bind].
  pose proof (mul_u32_fits x y Hx Hy) as Hp.
  rewrite u64_small by lia. rewrite u32_small; [reflexivity |].
  unfold in_u32. pose proof (Z.mod_pos_bound (x * y) m). lia.
Qed.

(** * powmod *)

Lemma pow_split (b e : Z) :
  0 <= e -> b ^ e = (b * b) ^ (e / 2) * b ^ (e mod 2).
Proof.
  intros He. rewrite <- Z.pow_2_r, <- Z.pow_mul_r, <- Z.pow_add_r.
  - f_equal. apply Z.div_mod. lia.
  - apply Z.mul_nonneg_nonneg; [lia | apply Z.div_pos; lia].
  - apply Z.mod_pos_bound. lia.
  - lia.
  - apply Z.div_pos; lia.
Qed.

Lemma mod_pow_sq (r p e m : Z) :
  0 < m -> 0 <= e ->
  (r * ((p * p) mod m) ^ e) mod m = (r * (p * p) ^ e) mod m.
Proof.
  intros Hm He.
  rewrite <- (Z.mul_mod_idemp_r r (_ ^ e)) by lia.
  rewrite Z.mod_pow_l. rewrite Z.mul_mod_idemp_r by lia. reflexivity.
Qed.

(** The loop invariant of square-and-multiply: from a state
    [(power, result, exponent)] the loop returns
    [result * power ^ exponent mod m], or [result] untouched when the
    exponent is already zero. *)
Lemma powmod_loop_spec (f : nat) :
  forall power result e m,
    0 < m < 2 ^ 32 -> 0 <= power < m -> in_u32 result ->
    0 <= e < 2 ^ Z.of_nat f ->
    powmod_loop (S f) power result e m =
    Ok (if e =? 0 then result else (result * power ^ e) mod m).
Proof.
  induction f as [| f IH]; intros power result e m Hm Hp Hr He.
  - assert (e = 0) by (change (2 ^ Z.of_nat 0) with 1 in He; lia). subst e.
    reflexivity.
  - assert (Hhalf : 0 <= e / 2 < 2 ^ Z.of_nat f).
    { rewrite Nat2Z.inj_succ, Z.pow_succ_r in He by lia.
      split; [apply Z.div_pos; lia | apply Z.div_lt_upper_bound; lia]. }
    remember (S f) as g eqn:Hg. cbn [powmod_loop].
    destruct (Z.eqb_spec e 0) as [E0 | E0]; [reflexivity |].
    assert (Hpu : in_u32 power) by (unfold in_u32; lia).
    assert (Hsq : 0 <= (power * power) mod m < m) by (apply Z.mod_pos_bound; lia).
    rewrite land_1_even, shiftr_1_half.
    rewrite (mulmod_exact power power m Hpu Hpu Hm).
    rewrite (pow_split power e) by lia.
    destruct (Z.even e) eqn:Ev.
    + cbn [bind]. subst g. rewrite IH by assumption.
      assert (Hm2 : e mod 2 = 0) by (rewrite Zeven_mod in Ev; lia).
      rewrite Hm2, Z.pow_0_r, Z.mul_1_r.
      destruct (Z.eqb_spec (e / 2) 0) as [E1 | E1].
      * exfalso. pose proof (Z.div_mod e 2). lia.
      * f_equal. apply mod_pow_sq; lia.
    + rewrite (mulmod_exact result power m Hr Hpu Hm). cbn [bind]. subst g.
      assert (Hrm : 0 <= (result * power) mod m < m) by (apply Z.mod_pos_bound; lia).
      rewrite IH; [| assumption | assumption | unfold in_u32; lia | assumption].
      assert (Hm2 : e mod 2 = 1).
      { rewrite Zeven_mod in Ev. pose proof (Z.mod_pos_bound e 2). 
        destruct (Z.eqb_spec (e mod 2) 0); [discriminate | lia]. }
      rewrite Hm2, Z.pow_1_r.
      destruct (Z.eqb_spec (e / 2) 0) as [E1 | E1].
      * rewrite E1, Z.pow_0_r, Z.mul_1_l. reflexivity.
      * f_equal. rewrite mod_pow_sq by lia.
        rewrite Z.mul_mod_idemp_l by lia. f_equal. ring.
Qed.

(** What [powmod] returns on every in-range call with a non-zero modulus. *)
Lemma powmod_value (base e m : Z) :
  in_u32 base -> in_u32 e -> 0 < m < 2 ^ 32 ->
  powmod base e m = Ok (if e =? 0 then 1 else base ^ e mod m).
Proof.
  intros Hb He Hm. unfold powmod, umod.
  destruct (Z.eqb_spec m 0); [lia |]. cbn [bind]. unfold powmod_fuel.
  rewrite powmod_loop_spec.
  - destruct (e =? 0); [reflexivity |].
    rewrite Z.mul_1_l, Z.mod_pow_l. reflexivity.
  - assumption.
  - apply Z.mod_pos_bound. lia.
  - unfold in_u32. lia.
  - exact He.
Qed.

Lemma mult_ok_intro (x y m : Z) :
  0 <= x < m -> 0 <= y < m -> m < 2 ^ 32 -> mult_ok (x, y, m).
Proof.
  intros Hx Hy Hm. unfold mult_ok.
  assert (Hxu : in_u32 x) by (unfold in_u32; lia).
  assert (Hyu : in_u32 y) by (unfold in_u32; lia).
  pose proof (mul_u32_fits x y Hxu Hyu).
  repeat split; try lia. apply mulmod_exact; assumption || lia.
Qed.

Lemma mult_fits_intro (x y m : Z) :
  in_u32 x -> in_u32 y -> 0 < m < 2 ^ 32 -> mult_fits (x, y, m).
Proof.
  intros Hx Hy Hm. unfold mult_fits.
  pose proof (mul_u32_fits x y Hx Hy). unfold in_u32 in Hx, Hy.
  repeat split; try lia. apply mulmod_exact; assumption.
Qed.

Lemma mult_ok_fits (ev : mult) : mult_ok ev -> mult_fits ev.
Proof.
  destruct ev as [[x y] m]. unfold mult_ok, mult_fits. intros H.
  repeat split; try tauto; lia.
Qed.

(** Every multiplication of the loop has 32-bit operands and an exact
    result; both operands are below the modulus as soon as [result] is. *)
Lemma powmod_loop_mults_ok (fuel : nat) :
  forall power result e m,
    0 < m < 2 ^ 32 -> 0 <= power < m -> in_u32 result ->
    Forall mult_fits (powmod_loop_mults fuel power result e m) /\
    (result < m -> Forall mult_ok (powmod_loop_mults fuel power result e m)).
Proof.
  induction fuel as [| fuel IH]; intros power result e m Hm Hp Hr.
  - split; intros; constructor.
  - cbn [powmod_loop_mults].
    destruct (e =? 0); [split; intros; constructor |].
    assert (Hpu : in_u32 power) by (unfold in_u32; lia).
    assert (Hsq : 0 <= (power * power) mod m < m) by (apply Z.mod_pos_bound; lia).
    assert (Hrm : 0 <= (result * power) mod m < m) by (apply Z.mod_pos_bound; lia).
    rewrite (mulmod_exact power power m Hpu Hpu Hm).
    destruct (Z.land e 1 =? 0); cbn [negb].
    + destruct (IH ((power * power) mod m) result (Z.shiftr e 1) m Hm Hsq Hr)
        as [IHf IHo].
      split.
      * constructor; [apply mult_fits_intro; assumption | exact IHf].
      * intros Hlt. constructor; [apply mult_ok_intro; lia | exact (IHo Hlt)].
    + rewrite (mulmod_exact result power m Hr Hpu Hm).
      assert (Hr' : in_u32 ((result * power) mod m)) by (unfold in_u32; lia).
      destruct (IH ((power * power) mod m) ((result * power) mod m)
                  (Z.shiftr e 1) m Hm Hsq Hr') as [_ IHo].
      assert (Hrest : Forall mult_ok
                (powmod_loop_mults fuel ((power * power) mod m)
                   ((result * power) mod m) (Z.shiftr e 1) m)) by (apply IHo; lia).
      split.
      * constructor; [apply mult_fits_intro; assumption |].
        constructor; [apply mult_fits_intro; assumption |].
        eapply Forall_impl; [apply mult_ok_fits | exact Hrest].
      * intros Hlt. unfold in_u32 in Hr.
        constructor; [apply mult_ok_intro; lia |].
        constructor; [apply mult_ok_intro; lia | exact Hrest].
Qed.

(** [power] and [result] stay below the modulus. *)
Lemma powmod_loop_states_below (fuel : nat) :
  forall power result e m,
    0 < m < 2 ^ 32 -> 0 <= power < m -> 0 <= result < m ->
    Forall (fun s : Z * Z => 0 <= fst s < m /\ 0 <= snd s < m)
           (powmod_loop_states fuel power result e m).
Proof.
  induction fuel as [| fuel IH]; intros power result e m Hm Hp Hr;
    cbn [powmod_loop_states]; constructor; [cbn [fst snd]; lia |].
  destruct (e =? 0); [constructor |].
  assert (Hpu : in_u32 power) by (unfold in_u32; lia).
  assert (Hru : in_u32 result) by (unfold in_u32; lia).
  rewrite (mulmod_exact power power m Hpu Hpu Hm).
  rewrite (mulmod_exact result power m Hru Hpu Hm).
  destruct (Z.land e 1 =? 0); apply IH; try assumption;
    apply Z.mod_pos_bound; lia.
Qed.

Lemma sprp_loop_mults_ok (k : nat) :
  forall power n,
    0 < n < 2 ^ 32 -> 0 <= power < n ->
    Forall mult_ok (sprp_loop_mults k power n).
Proof.
  induction k as [| k IH]; intros power n Hn Hp; cbn [sprp_loop_mults].
  - constructor.
  - destruct (power =? u32 (n - 1)); [constructor |].
    assert (Hpu : in_u32 power) by (unfold in_u32; lia).
    rewrite (mulmod_exact power power n Hpu Hpu Hn).
    constructor; [apply mult_ok_intro; lia |].
    apply IH; [assumption | apply Z.mod_pos_bound; lia].
Qed.

Lemma powmod_value_gt1 (base e m : Z) :
  in_u32 base -> in_u32 e -> 1 < m < 2 ^ 32 ->
  powmod base e m = Ok (base ^ e mod m).
Proof.
  intros Hb He Hm. rewrite powmod_value by (assumption || lia).
  destruct (Z.eqb_spec e 0) as [E | E]; [| reflexivity].
  rewrite E, Z.pow_0_r, Z.mod_small by lia. reflexivity.
Qed.

(** * The trailing-zero count and the decomposition of n - 1 *)

Lemma ctz_pos_nonneg (p : positive) : 0 <= ctz_pos p.
Proof. induction p; cbn [ctz_pos]; lia. Qed.

Lemma ctz_pos_decomp (p : positive) :
  Z.pos p = Z.pos p / 2 ^ ctz_pos p * 2 ^ ctz_pos p /\
  Z.odd (Z.pos p / 2 ^ ctz_pos p) = true.
Proof.
  induction p as [p _ | p [IHe IHo] |]; cbn [ctz_pos].
  - rewrite Z.pow_0_r, Z.div_1_r, Z.mul_1_r. split; reflexivity.
  - pose proof (ctz_pos_nonneg p) as Hc.
    assert (Hq : Z.pos p~0 / 2 ^ (1 + ctz_pos p) = Z.pos p / 2 ^ ctz_pos p).
    { rewrite Z.pow_add_r, Z.pow_1_r by lia. rewrite (Pos2Z.inj_xO p).
      apply Z.div_mul_cancel_l; [apply Z.pow_nonzero; lia | lia]. }
    rewrite Hq. split; [| exact IHo].
    rewrite Z.pow_add_r, Z.pow_1_r by lia. rewrite (Pos2Z.inj_xO p) at 1.
    rewrite IHe at 1. ring.
  - rewrite Z.pow_0_r, Z.div_1_r, Z.mul_1_r. split; reflexivity.
Qed.

(** The model of the builtin agrees with the bits of its argument: bit
    [ctz_pos p] is set and every lower bit is clear. *)
Lemma ctz_pos_testbit (p : positive) :
  Z.testbit (Z.pos p) (ctz_pos p) = true /\
  forall i, 0 <= i < ctz_pos p -> Z.testbit (Z.pos p) i = false.
Proof.
  pose proof (ctz_pos_nonneg p) as Hc.
  destruct (ctz_pos_decomp p) as [He Ho].
  split.
  - rewrite He, Z.mul_pow2_bits by lia. rewrite Z.sub_diag, Z.bit0_odd. exact Ho.
  - intros i Hi. rewrite He. apply Z.mul_pow2_bits_low. lia.
Qed.

Lemma odd_pow2_decomp_unique (d e d' e' : Z) :
  0 <= e -> 0 <= e' -> Z.odd d = true -> Z.odd d' = true ->
  d * 2 ^ e = d' * 2 ^ e' -> d = d' /\ e = e'.
Proof.
  assert (Hle : forall d e d' e', 0 <= e <= e' -> Z.odd d = true ->
                  d * 2 ^ e = d' * 2 ^ e' -> e = e').
  { intros a x b y Hxy Ha Heq.
    destruct (Z.eq_dec x y) as [| Hne]; [assumption | exfalso].
    replace y with (x + (1 + (y - x - 1))) in Heq by lia.
    rewrite !Z.pow_add_r, Z.pow_1_r in Heq by lia.
    assert (Hx : 2 ^ x <> 0) by (apply Z.pow_nonzero; lia).
    assert (Ha2 : a = 2 * (b * 2 ^ (y - x - 1))).
    { apply (Z.mul_reg_r _ _ (2 ^ x) Hx). rewrite Heq. ring. }
    rewrite Ha2, Z.odd_mul in Ha. discriminate. }
  intros He He' Hd Hd' Heq.
  assert (e = e').
  { destruct (Z.le_ge_cases e e').
    - apply (Hle d e d' e'); auto.
    - symmetry. apply (Hle d' e' d e); auto. }
  subst e'. split; [| reflexivity].
  apply (Z.mul_reg_r _ _ (2 ^ e)); [apply Z.pow_nonzero; lia | exact Heq].
Qed.

(** The decomposition computed by [is_strong_probable_prime]. *)
Lemma decomposition (n : Z) :
  in_u32 n -> 2 < n -> Z.odd n = true ->
  exists e,
    builtin_ctzl (u32 (n - 1)) = Ok e /\
    n - 1 = Z.shiftr (u32 (n - 1)) e * 2 ^ e /\
    Z.odd (Z.shiftr (u32 (n - 1)) e) = true /\
    1 <= e < 32 /\
    0 < Z.shiftr (u32 (n - 1)) e < n.
Proof.
  intros Hn H2 Hodd. unfold in_u32 in Hn.
  rewrite u32_small by (unfold in_u32; lia).
  destruct (n - 1) as [| p |] eqn:Hp; try lia.
  exists (ctz_pos p). cbn [builtin_ctzl].
  pose proof (ctz_pos_nonneg p) as Hc.
  destruct (ctz_pos_decomp p) as [He Ho].
  rewrite Z.shiftr_div_pow2 by lia.
  assert (Hpow : 0 < 2 ^ ctz_pos p) by (apply Z.pow_pos_nonneg; lia).
  assert (Hd : 0 < Z.pos p / 2 ^ ctz_pos p).
  { pose proof (Z.div_pos (Z.pos p) (2 ^ ctz_pos p)).
    destruct (Z.eq_dec (Z.pos p / 2 ^ ctz_pos p) 0) as [E | ]; [| lia].
    rewrite E in Ho. discriminate. }
  assert (He1 : 1 <= ctz_pos p).
  { destruct (Z.eq_dec (ctz_pos p) 0) as [E0 | ]; [| lia]. exfalso.
    rewrite E0, Z.pow_0_r, Z.div_1_r in Ho.
    assert (Hn1 : n = Z.pos p + 1) by lia.
    rewrite Hn1, Z.odd_add, Ho in Hodd. discriminate. }
  repeat split; try assumption; try lia.
  - destruct (Z.lt_ge_cases (ctz_pos p) 32) as [| Hge]; [assumption | exfalso].
    assert (2 ^ 32 <= 2 ^ ctz_pos p) by (apply Z.pow_le_mono_r; lia). nia.
  - nia.
Qed.

(** * is_strong_probable_prime *)

Lemma sprp_loop_spec (k : nat) :
  forall power n,
    2 < n < 2 ^ 32 -> 0 <= power < n ->
    exists b,
      sprp_loop k power n = Ok b /\
      (b = true <->
       exists i, 0 <= i < Z.of_nat k /\ power ^ (2 ^ i) mod n = n - 1).
Proof.
  induction k as [| k IH]; intros power n Hn Hp.
  - exists false. split; [reflexivity |].
    split; [discriminate | intros [i [Hi _]]; lia].
  - cbn [sprp_loop]. rewrite u32_small by (unfold in_u32; lia).
    destruct (Z.eqb_spec power (n - 1)) as [E | E].
    + exists true. split; [reflexivity |]. split; [| reflexivity].
      intros _. exists 0. split; [lia |].
      rewrite Z.pow_0_r, Z.pow_1_r. rewrite Z.mod_small; lia.
    + assert (Hpu : in_u32 power) by (unfold in_u32; lia).
      rewrite (mulmod_exact power power n Hpu Hpu) by lia. cbn [bind].
      assert (Hsq : 0 <= (power * power) mod n < n) by (apply Z.mod_pos_bound; lia).
      destruct (IH _ n Hn Hsq) as [b [Hb Hiff]].
      exists b. split; [exact Hb |]. rewrite Hiff.
      assert (Hstep : forall i, 0 <= i ->
                ((power * power) mod n) ^ (2 ^ i) mod n = power ^ (2 ^ (i + 1)) mod n).
      { intros i Hi. rewrite Z.mod_pow_l. f_equal.
        replace (2 ^ (i + 1)) with (2 * 2 ^ i)
          by (rewrite Z.pow_add_r, Z.pow_1_r by lia; ring).
        rewrite Z.pow_mul_r by (try apply Z.pow_nonneg; lia).
        rewrite Z.pow_2_r. reflexivity. }
      split.
      * intros [i [Hi Hv]]. exists (i + 1). split; [lia |].
        rewrite <- Hstep by lia. exact Hv.
      * intros [i [Hi Hv]].
        destruct (Z.eq_dec i 0) as [E0 | E0].
        -- exfalso. subst i. rewrite Z.pow_0_r, Z.pow_1_r, Z.mod_small in Hv by lia.
           contradiction.
        -- exists (i - 1). split; [lia |].
           rewrite Hstep by lia. replace (i - 1 + 1) with i by lia. exact Hv.
Qed.

(** Past the three guards the function decides the strong-pseudoprime
    criterion for the decomposition it computes. *)
Lemma sprp_decides (a n : Z) :
  in_u32 a -> in_u32 n -> 0 < a -> 2 < n -> Z.odd n = true -> n mod a <> 0 ->
  forall d e, 0 <= e -> Z.odd d = true -> n - 1 = d * 2 ^ e ->
  exists b,
    is_strong_probable_prime a n = Ok b /\
    (b = true <-> strong_criterion a n d e).
Proof.
  intros Ha Hn Ha0 H2 Hodd Hnd d e He Hd Hde.
  destruct (decomposition n Hn H2 Hodd) as [e0 [Hctz [Hdec [Hod [He0 Hd0]]]]].
  destruct (odd_pow2_decomp_unique d e _ e0 He ltac:(lia) Hd Hod) as [Ed Ee].
  { rewrite <- Hde. exact Hdec. }
  unfold is_strong_probable_prime.
  destruct (Z.leb_spec n 2) as [| _]; [lia |].
  rewrite land_1_even, <- Z.negb_odd, Hodd. cbn [negb].
  unfold umod at 1. destruct (Z.eqb_spec a 0) as [| _]; [lia |]. cbn [bind].
  destruct (Z.eqb_spec (n mod a) 0) as [| _]; [contradiction |].
  rewrite Hctz. cbn [bind]. rewrite <- Ed, <- Ee. subst e0.
  assert (Hdu : in_u32 d) by (unfold in_u32 in *; lia).
  rewrite (powmod_value a d n Ha Hdu) by (unfold in_u32 in Hn; lia).
  destruct (Z.eqb_spec d 0) as [Ez | _]; [rewrite Ez in Hd; discriminate |]. cbn [bind].
  assert (Hpw : 0 <= a ^ d mod n < n) by (apply Z.mod_pos_bound; lia).
  destruct (Z.eqb_spec (a ^ d mod n) 1) as [E1 | E1].
  - exists true. split; [reflexivity |]. split; [| reflexivity].
    intros _. left. exact E1.
  - destruct (sprp_loop_spec (Z.to_nat e) (a ^ d mod n) n) as [b [Hb Hiff]];
      [unfold in_u32 in Hn; lia | exact Hpw |].
    exists b. split; [exact Hb |]. rewrite Hiff, Z2Nat.id by lia.
    assert (Hstep : forall i, 0 <= i ->
              (a ^ d mod n) ^ (2 ^ i) mod n = a ^ (d * 2 ^ i) mod n).
    { intros i Hi. rewrite Z.mod_pow_l, <- Z.pow_mul_r;
        [reflexivity | lia | apply Z.pow_nonneg; lia]. }
    unfold strong_criterion. split.
    + intros [i [Hi Hv]]. right. exists i. split; [exact Hi |].
      rewrite <- Hstep by lia. exact Hv.
    + intros [H1 | [i [Hi Hv]]]; [contradiction |].
      exists i. split; [exact Hi |]. rewrite Hstep by lia. exact Hv.
Qed.

(** With a non-zero base the function returns a verdict on every 32-bit
    candidate: no operation is undefined and no loop runs out of fuel. *)
Lemma sprp_total (a n : Z) :
  in_u32 a -> in_u32 n -> 0 < a ->
  exists b, is_strong_probable_prime a n = Ok b.
Proof.
  intros Ha Hn Ha0.
  destruct (Z.leb_spec n 2) as [Hle | Hgt].
  { unfold is_strong_probable_prime.
    destruct (Z.leb_spec n 2); [| lia]. eexists; reflexivity. }
  destruct (Z.odd n) eqn:Hodd.
  - destruct (Z.eq_dec (n mod a) 0) as [E | E].
    + unfold is_strong_probable_prime.
      destruct (Z.leb_spec n 2); [lia |].
      rewrite land_1_even, <- Z.negb_odd, Hodd. cbn [negb].
      unfold umod. destruct (Z.eqb_spec a 0); [lia |]. cbn [bind].
      rewrite E. cbn [Z.eqb]. eexists; reflexivity.
    + destruct (decomposition n Hn Hgt Hodd) as [e [_ [Hdec [Hod [He _]]]]].
      destruct (sprp_decides a n Ha Hn Ha0 Hgt Hodd E _ e ltac:(lia) Hod Hdec)
        as [b [Hb _]].
      exists b. exact Hb.
  - unfold is_strong_probable_prime.
    destruct (Z.leb_spec n 2); [lia |].
    rewrite land_1_even, <- Z.negb_odd, Hodd. cbn [negb].
    eexists; reflexivity.
Qed.

Lemma squaring_mults_ok (a n : Z) :
  in_u32 a -> in_u32 n -> Forall mult_ok (squaring_mults a n).
Proof.
  intros Ha Hn. unfold squaring_mults.
  destruct (Z.leb_spec n 2) as [| Hgt]; [constructor |].
  destruct (Z.land n 1 =? 0) eqn:Hev; [constructor |].
  destruct (umod n a) as [r | f] eqn:Hr; [| constructor].
  destruct (r =? 0); [constructor |].
  destruct (builtin_ctzl (u32 (n - 1))) as [e | f]; [| constructor].
  destruct (powmod a (Z.shiftr (u32 (n - 1)) e) n) as [power | f] eqn:Hpw;
    [| constructor].
  destruct (power =? 1); [constructor |].
  unfold in_u32 in Hn. apply sprp_loop_mults_ok; [lia |].
  (* the value returned by [powmod] is below the modulus *)
  unfold powmod, umod in Hpw.
  destruct (Z.eqb_spec n 0); [lia |]. cbn [bind] in Hpw.
  assert (Hinv : forall fuel p r0 x v,
            0 <= p < n -> 0 <= r0 < n ->
            powmod_loop fuel p r0 x n = Ok v -> 0 <= v < n).
  { induction fuel as [| fuel IH]; intros p r0 x v Hp Hr0 Hv;
      cbn [powmod_loop] in Hv; [discriminate |].
    destruct (x =? 0); [injection Hv as <-; exact Hr0 |].
    assert (Hpu : in_u32 p) by (unfold in_u32; lia).
    assert (Hru : in_u32 r0) by (unfold in_u32; lia).
    rewrite (mulmod_exact p p n Hpu Hpu) in Hv by lia.
    rewrite (mulmod_exact r0 p n Hru Hpu) in Hv by lia.
    destruct (Z.land x 1 =? 0); cbn [bind] in Hv;
      (eapply IH; [| | exact Hv]; try apply Z.mod_pos_bound; lia). }
  eapply Hinv; [| | exact Hpw]; [apply Z.mod_pos_bound; lia | lia].
Qed.

(** * Divisors and primes *)

Lemma least_divisor (n : Z) :
  1 < n ->
  exists q, 1 < q <= n /\ (q | n) /\ forall d, 1 < d -> (d | n) -> q <= d.
Proof.
  intros Hn.
  assert (Hsearch : forall (k : nat) (lo : Z),
             2 <= lo <= n -> n - lo = Z.of_nat k ->
             (forall d, 1 < d < lo -> ~ (d | n)) ->
             exists q, 1 < q <= n /\ (q | n) /\
                       forall d, 1 < d -> (d | n) -> q <= d).
  { induction k as [| k IH]; intros lo Hlo Hk Hbelow.
    - assert (lo = n) by lia. subst lo. exists n.
      split; [lia |]. split; [apply Z.divide_refl |].
      intros d Hd Hdn. destruct (Z.lt_ge_cases d n) as [Hlt | ]; [| lia].
      exfalso. apply (Hbelow d); [lia | exact Hdn].
    - destruct (Z.eq_dec (n mod lo) 0) as [E | E].
      + exists lo. split; [lia |]. split; [apply Z.mod_divide; [lia | exact E] |].
        intros d Hd Hdn. destruct (Z.lt_ge_cases d lo) as [Hlt | ]; [| lia].
        exfalso. apply (Hbelow d); [lia | exact Hdn].
      + apply (IH (lo + 1)); [lia | lia |].
        intros d Hd Hdn. destruct (Z.eq_dec d lo) as [-> | Hne].
        * apply E. apply Z.mod_divide; [lia | exact Hdn].
        * apply (Hbelow d); [lia | exact Hdn]. }
  apply (Hsearch (Z.to_nat (n - 2)) 2); [lia | lia |].
  intros d Hd. lia.
Qed.

Lemma least_divisor_prime (n q : Z) :
  1 < q -> (q | n) -> (forall d, 1 < d -> (d | n) -> q <= d) -> Z.prime q.
Proof.
  intros Hq Hqn Hleast. split; [exact Hq |].
  intros x Hx Hxq.
  assert (q <= x) by (apply Hleast; [lia | apply (Z.divide_trans _ q); assumption]).
  lia.
Qed.

Lemma exists_prime_divisor (n : Z) :
  1 < n -> exists r, Z.prime r /\ (r | n).
Proof.
  intros Hn. destruct (least_divisor n Hn) as [q [Hq [Hqn Hleast]]].
  exists q. split; [| exact Hqn].
  apply (least_divisor_prime n); [lia | assumption | assumption].
Qed.

(** A composite number is its least prime factor times a cofactor at least
    as large, and every divisor of the cofactor other than 1 is at least
    the least factor. *)
Lemma composite_split (n : Z) :
  1 < n -> ~ Z.prime n ->
  exists q m,
    Z.prime q /\ n = q * m /\ q <= m /\
    forall d, 1 < d -> (d | m) -> q <= d.
Proof.
  intros Hn Hnp. destruct (least_divisor n Hn) as [q [Hq [Hqn Hleast]]].
  assert (Hqp : Z.prime q) by (apply (least_divisor_prime n); [lia | assumption | assumption]).
  destruct Hqn as [m Hm]. exists q, m.
  assert (Hm1 : 1 < m).
  { destruct (Z.lt_ge_cases 1 m) as [| Hle]; [assumption | exfalso].
    assert (m = 1) by nia. subst m. apply Hnp. replace n with q by lia. exact Hqp. }
  assert (Hdiv : forall d, (d | m) -> (d | n)).
  { intros d [c Hc]. exists (c * q). subst m. lia. }
  split; [exact Hqp |]. split; [lia |]. split.
  - apply Hleast; [exact Hm1 | apply Hdiv, Z.divide_refl].
  - intros d Hd Hdm. apply Hleast; [exact Hd | apply Hdiv, Hdm].
Qed.

(** Primality by trial division. *)
Lemma prime_no_small_divisor (n : Z) :
  1 < n -> (forall d, 1 < d -> d * d <= n -> ~ (d | n)) -> Z.prime n.
Proof.
  intros Hn Hno.
  destruct (least_divisor n Hn) as [q [Hq [Hqn Hleast]]].
  destruct (Z.eq_dec q n) as [-> | Hne].
  - apply (least_divisor_prime n); [lia | assumption | assumption].
  - exfalso. destruct Hqn as [m Hm].
    assert (Hm1 : 1 < m) by nia.
    assert (q <= m) by (apply Hleast; [exact Hm1 | exists q; lia]).
    apply (Hno q); [lia | nia | exists m; exact Hm].
Qed.

(** * Exponents that send a base to 1 *)

Section ExponentSet.

(** A set of non-negative exponents closed under multiples and under
    cancellation, such as [{N | a ^ N mod q = 1}]. *)
Variable P : Z -> Prop.
Hypothesis P_mul : forall N k, 0 <= N -> 0 <= k -> P N -> P (N * k).
Hypothesis P_cancel :
  forall N M, 0 <= N -> 0 <= M -> P (N + M) -> P M -> P N.

Lemma P_mod (N L : Z) : 0 <= N -> 0 < L -> P N -> P L -> P (N mod L).
Proof.
  intros HN HL HPN HPL.
  pose proof (Z.mod_pos_bound N L HL) as Hb.
  assert (Hq : 0 <= N / L) by (apply Z.div_pos; lia).
  apply (P_cancel (N mod L) (L * (N / L))); [lia | nia | |].
  - replace (N mod L + L * (N / L)) with N; [exact HPN |].
    pose proof (Z.div_mod N L). lia.
  - apply P_mul; [lia | exact Hq | exact HPL].
Qed.

Lemma P_gcd (B : Z) :
  0 <= B -> forall A, 0 <= A -> P A -> P B -> P (Z.gcd A B).
Proof.
  intros HB. revert HB. pattern B.
  apply (well_founded_induction (Z.lt_wf 0)).
  clear B. intros B IH HB A HA HPA HPB.
  destruct (Z.eq_dec B 0) as [-> | Hne].
  - rewrite Z.gcd_0_r, Z.abs_eq by lia. exact HPA.
  - rewrite Z.gcd_comm, <- Z.gcd_mod by lia. rewrite Z.gcd_comm.
    pose proof (Z.mod_pos_bound A B ltac:(lia)) as Hb.
    apply IH; [lia | lia | lia | exact HPB |].
    apply P_mod; [lia | lia | exact HPA | exact HPB].
Qed.

(** An exponent [L] in the set with no [L / r] in the set, [r] a prime
    factor of [L], divides every exponent of the set. *)
Lemma minimal_exponent_divides (L : Z) :
  0 < L -> P L ->
  (forall r, Z.prime r -> (r | L) -> ~ P (L / r)) ->
  forall N, 0 <= N -> P N -> (L | N).
Proof.
  intros HL HPL Hmin N HN HPN.
  pose proof (P_gcd L ltac:(lia) N HN HPN HPL) as HPg.
  pose proof (Z.gcd_divide_l N L) as Hg1.
  pose proof (Z.gcd_divide_r N L) as Hg2.
  pose proof (Z.gcd_nonneg N L) as Hg0.
  remember (Z.gcd N L) as g eqn:Eg.
  destruct (Z.eq_dec g L) as [-> | Hne]; [exact Hg1 |].
  exfalso. destruct Hg2 as [c Hc].
  assert (Hgpos : 0 < g).
  { destruct (Z.eq_dec g 0) as [E0 | ]; [rewrite E0 in Hc |]; lia. }
  assert (Hc1 : 1 < c).
  { destruct (Z.eq_dec c 1) as [E1 | ]; [rewrite E1 in Hc; lia | nia]. }
  destruct (exists_prime_divisor c Hc1) as [r [Hr [t Ht]]].
  pose proof (Z.prime_ge_2 r Hr) as Hr2.
  apply (Hmin r Hr).
  - exists (t * g). subst c. lia.
  - replace (L / r) with (g * t).
    + apply P_mul; [lia | nia | exact HPg].
    + apply Z.div_unique_exact; [lia | subst c; lia].
Qed.

End ExponentSet.

(** * Powers congruent to 1 *)

Lemma unit_power_mul (a q N k : Z) :
  1 < q -> 0 <= N -> 0 <= k -> unit_power a q N -> unit_power a q (N * k).
Proof.
  unfold unit_power. intros Hq HN Hk H.
  rewrite Z.pow_mul_r, <- Z.mod_pow_l, H, Z.pow_1_l by lia.
  apply Z.mod_small. lia.
Qed.

Lemma unit_power_cancel (a q N M : Z) :
  1 < q -> 0 <= N -> 0 <= M ->
  unit_power a q (N + M) -> unit_power a q M -> unit_power a q N.
Proof.
  unfold unit_power. intros Hq HN HM HNM HMq.
  rewrite Z.pow_add_r, <- Z.mul_mod_idemp_r, HMq, Z.mul_1_r in HNM by lia.
  exact HNM.
Qed.

Lemma unit_power_divisor (a n q N : Z) :
  1 < q -> (q | n) -> unit_power a n N -> unit_power a q N.
Proof.
  unfold unit_power. intros Hq Hdiv H.
  rewrite <- (Z.mod_mod_divide _ n q Hdiv), H.
  apply Z.mod_small. lia.
Qed.

Lemma unit_power3_mul (q N k : Z) :
  1 < q -> 0 <= N -> 0 <= k -> unit_power3 q N -> unit_power3 q (N * k).
Proof.
  intros Hq HN Hk [H2 [H7 H61]].
  repeat split; apply unit_power_mul; assumption.
Qed.

Lemma unit_power3_cancel (q N M : Z) :
  1 < q -> 0 <= N -> 0 <= M ->
  unit_power3 q (N + M) -> unit_power3 q M -> unit_power3 q N.
Proof.
  intros Hq HN HM [A2 [A7 A61]] [B2 [B7 B61]].
  repeat split; eapply unit_power_cancel; eassumption.
Qed.

Lemma unit_power3_divisor (n q N : Z) :
  1 < q -> (q | n) -> unit_power3 n N -> unit_power3 q N.
Proof.
  intros Hq Hdiv [H2 [H7 H61]].
  repeat split; eapply unit_power_divisor; eassumption.
Qed.

(** A number that passes the strong test passes the Fermat test. *)
Lemma strong_criterion_fermat (a n d e : Z) :
  2 < n -> 0 <= d -> 0 <= e -> n - 1 = d * 2 ^ e ->
  strong_criterion a n d e -> unit_power a n (n - 1).
Proof.
  intros Hn Hd He Hde [H1 | [i [Hi Hm1]]].
  - rewrite Hde. apply unit_power_mul; [lia | lia | apply Z.pow_nonneg; lia | exact H1].
  - assert (Hsq : unit_power a n (d * 2 ^ (i + 1))).
    { unfold unit_power.
      rewrite Z.pow_add_r, Z.pow_1_r, Z.mul_assoc by lia.
      rewrite Z.pow_mul_r by (try apply Z.mul_nonneg_nonneg; try apply Z.pow_nonneg; lia).
      rewrite <- Z.mod_pow_l, Hm1, Z.pow_2_r.
      replace ((n - 1) * (n - 1)) with (1 + (n - 2) * n) by ring.
      rewrite Z.mod_add by lia. apply Z.mod_small. lia. }
    replace (n - 1) with (d * 2 ^ (i + 1) * 2 ^ (e - (i + 1))).
    + apply unit_power_mul; [lia | | apply Z.pow_nonneg; lia | exact Hsq].
      apply Z.mul_nonneg_nonneg; [lia | apply Z.pow_nonneg; lia].
    + rewrite Hde, <- Z.mul_assoc, <- Z.pow_add_r by lia.
      do 2 f_equal. lia.
Qed.

(** Modulo a prime the only square roots of 1 are 1 and -1. *)
Lemma prime_sqrt_one (n x : Z) :
  Z.prime n -> 0 <= x < n -> (x * x) mod n = 1 -> x = 1 \/ x = n - 1.
Proof.
  intros Hp Hx Hsq.
  pose proof (Z.prime_ge_2 n Hp) as Hn.
  assert (Hdiv : (n | (x - 1) * (x + 1))).
  { exists ((x * x) / n). pose proof (Z.div_mod (x * x) n). nia. }
  apply (Z.divide_prime_mul _ _ n Hp) in Hdiv.
  destruct Hdiv as [[k Hk] | [k Hk]].
  - left. assert (k = 0) by nia. lia.
  - right. assert (k = 1) by nia. lia.
Qed.

(** A prime passes the strong test for every base it does not divide. *)
Lemma prime_strong_criterion (a n d e : Z) :
  Z.prime n -> a mod n <> 0 -> 0 <= d -> 0 <= e -> n - 1 = d * 2 ^ e ->
  strong_criterion a n d e.
Proof.
  intros Hp Ha Hd He Hde.
  pose proof (Z.prime_ge_2 n Hp) as Hn.
  pose proof (ZmodInv.Z.fermat_nz n a Hp Ha) as Hf.
  rewrite Hde in Hf.
  (* walk down from [a ^ (d * 2^e) = 1] to the first power that is not 1 *)
  assert (Hwalk : forall k : nat, forall j, j = Z.of_nat k ->
            a ^ (d * 2 ^ j) mod n = 1 ->
            a ^ d mod n = 1 \/
            exists i, 0 <= i < j /\ a ^ (d * 2 ^ i) mod n = n - 1).
  { induction k as [| k IH]; intros j Hj Hone.
    - left. subst j. cbn in Hone. rewrite Z.mul_1_r in Hone. exact Hone.
    - assert (Hj1 : 0 <= j - 1) by lia.
      assert (Hb : 0 <= a ^ (d * 2 ^ (j - 1)) mod n < n) by (apply Z.mod_pos_bound; lia).
      assert (Hsq : (a ^ (d * 2 ^ (j - 1)) mod n * (a ^ (d * 2 ^ (j - 1)) mod n)) mod n = 1).
      { rewrite <- Z.mul_mod, <- Z.pow_add_r by
          (try apply Z.mul_nonneg_nonneg; try apply Z.pow_nonneg; lia).
        assert (E : 2 ^ j = 2 * 2 ^ (j - 1))
          by (rewrite <- Z.pow_succ_r by lia; f_equal; lia).
        replace (d * 2 ^ (j - 1) + d * 2 ^ (j - 1)) with (d * 2 ^ j)
          by (rewrite E; ring).
        exact Hone. }
      destruct (prime_sqrt_one n _ Hp Hb Hsq) as [H1 | Hm1].
      + destruct (IH (j - 1) ltac:(lia) H1) as [L | [i [Hi Hv]]].
        * left. exact L.
        * right. exists i. split; [lia | exact Hv].
      + right. exists (j - 1). split; [lia | exact Hm1]. }
  unfold strong_criterion.
  apply (Hwalk (Z.to_nat e) e); [lia | exact Hf].
Qed.

(** * Reducing an exponent prime by prime *)

Section Reduction.

Variable P : Z -> Prop.
Hypothesis P_mul : forall N k, 0 <= N -> 0 <= k -> P N -> P (N * k).

Lemma reduced_init (k : Z) : 0 < k -> reduced P k k.
Proof.
  intros Hk. exists 1, k. repeat split; try lia.
  - apply Z.divide_refl.
  - intros r Hr Hdiv. pose proof (Z.prime_ge_2 r Hr).
    apply Z.divide_1_r_nonneg in Hdiv; lia.
Qed.

Lemma reduced_done (k : Z) :
  reduced P k 1 -> forall r, Z.prime r -> (r | k) -> ~ P (k / r).
Proof.
  intros [u [w [Hk [Hu [Hw [Hdiv Hmin]]]]]] r Hr Hrk.
  apply Z.divide_1_r_nonneg in Hdiv; [| lia]. subst w.
  apply Hmin; [exact Hr |]. rewrite Z.mul_1_r in Hk. subst u. exact Hrk.
Qed.

(** Removing [r] from the cofactor when it cannot be, or is not, removed
    from the exponent. *)
Lemma reduced_keep (k rest r : Z) :
  Z.prime r -> (r | rest) -> reduced P k rest ->
  ((r | k) -> ~ P (k / r)) -> reduced P k (rest / r).
Proof.
  intros Hr [c Hc] [u [w [Hk [Hu [Hw [[s Hs] Hmin]]]]]] Hno.
  pose proof (Z.prime_ge_2 r Hr) as Hr2.
  assert (Erest : rest / r = c) by (subst rest; apply Z.div_mul; lia).
  rewrite Erest.
  destruct (Z.eq_dec (w mod r) 0) as [Hwr | Hwr].
  - (* [r] divides [w]: it moves into [u] *)
    apply Z.mod_divide in Hwr; [| lia]. destruct Hwr as [w' Hw'].
    exists (u * r), w'.
    assert (Hw'pos : 0 < w') by nia.
    split; [subst k w; ring |]. split; [nia |]. split; [exact Hw'pos |]. split.
    + exists s. apply (Z.mul_reg_r _ _ r); [lia |]. subst w. lia.
    + intros r' Hr' Hdiv.
      apply (Z.divide_prime_mul _ _ r' Hr') in Hdiv.
      destruct Hdiv as [Hdu | Hdr].
      * apply Hmin; assumption.
      * assert (r' = r).
        { apply (Z.divide_prime_prime r' r Hr' Hr) in Hdr. exact Hdr. }
        subst r'. apply Hno. exists (u * w'). subst k w. ring.
  - (* [r] is coprime to [w] *)
    exists u, w. repeat split; try assumption.
    apply (Z.gauss w r c).
    + exists s. lia.
    + rewrite Z.gcd_comm. apply Z.coprime_prime_l; [exact Hr |].
      intros Hdiv. apply Hwr. apply Z.mod_divide; [lia | exact Hdiv].
Qed.

(** Removing [r] from both the exponent and the cofactor. *)
Lemma reduced_shrink (k rest r : Z) :
  Z.prime r -> (r | rest) -> reduced P k rest ->
  (r | k) -> P (k / r) -> 0 < k -> reduced P (k / r) (rest / r).
Proof.
  intros Hr [c Hc] [u [w [Hk [Hu [Hw [[s Hs] Hmin]]]]]] Hrk HP Hkpos.
  pose proof (Z.prime_ge_2 r Hr) as Hr2.
  assert (Erest : rest / r = c) by (subst rest; apply Z.div_mul; lia).
  rewrite Erest.
  assert (Hrw : (r | w)).
  { rewrite Hk in Hrk. apply (Z.divide_prime_mul _ _ r Hr) in Hrk.
    destruct Hrk as [Hru | Hrw]; [| exact Hrw].
    exfalso. apply (Hmin r Hr Hru). exact HP. }
  destruct Hrw as [w' Hw'].
  assert (Hw'pos : 0 < w') by nia.
  assert (Ek : k / r = u * w').
  { subst k w. rewrite Z.mul_assoc. apply Z.div_mul. lia. }
  rewrite Ek in *.
  exists u, w'. split; [reflexivity |]. split; [exact Hu |].
  split; [exact Hw'pos |]. split.
  - exists s. apply (Z.mul_reg_r _ _ r); [lia |]. subst w. lia.
  - intros r' Hr' [u' Hu'] HP'.
    pose proof (Z.prime_ge_2 r' Hr') as Hr'2.
    apply (Hmin r' Hr'); [exists u'; exact Hu' |].
    assert (E1 : u * w' / r' = u' * w').
    { subst u. replace (u' * r' * w') with (u' * w' * r') by ring.
      apply Z.div_mul. lia. }
    assert (E2 : k / r' = u' * w' * r).
    { subst k w u. replace (u' * r' * (w' * r)) with (u' * w' * r * r') by ring.
      apply Z.div_mul. lia. }
    rewrite E1 in HP'. rewrite E2.
    apply P_mul; [nia | lia | exact HP'].
Qed.

End Reduction.

Lemma prime_decidable (n : Z) : Z.prime n \/ ~ Z.prime n.
Proof.
  destruct (Z_lt_le_dec 1 n) as [Hn | Hn].
  - destruct (least_divisor n Hn) as [q [Hq [Hqn Hleast]]].
    destruct (Z.eq_dec q n) as [-> | Hne].
    + left. apply (least_divisor_prime n); [lia | assumption | assumption].
    + right. intros [_ Hno]. apply (Hno q); [lia | exact Hqn].
  - right. intros [H1 _]. lia.
Qed.

(** * is_prime *)

Lemma small_primeb_spec (n : Z) :
  0 <= n < 64 -> (small_primeb n = true <-> Z.prime n).
Proof.
  intros Hn. unfold small_primeb. rewrite andb_true_iff, forallb_forall.
  split.
  - intros [H1 Hall]. apply Z.ltb_lt in H1.
    apply prime_no_small_divisor; [exact H1 |].
    intros d Hd Hsq Hdiv.
    assert (Hd7 : d <= 7) by nia.
    assert (Hin : In d [2; 3; 4; 5; 6; 7]) by (cbn; lia).
    specialize (Hall d Hin). apply orb_true_iff in Hall.
    destruct Hall as [Hle | Hnd].
    + apply Z.leb_le in Hle. nia.
    + apply negb_true_iff, Z.eqb_neq in Hnd. apply Hnd.
      apply Z.mod_divide; [lia | exact Hdiv].
  - intros [H1 Hno]. split; [apply Z.ltb_lt; exact H1 |].
    intros d Hin. apply orb_true_iff.
    destruct (Z.leb_spec n d) as [| Hlt]; [left; reflexivity | right].
    apply negb_true_iff, Z.eqb_neq. intros Hmod.
    assert (Hd : 1 < d) by (cbn in Hin; lia).
    apply (Hno d); [lia |]. apply Z.mod_divide; [lia | exact Hmod].
Qed.

(** Up to 61 the verdict is that of trial division (by evaluation). *)
Lemma is_prime_small (n : Z) :
  0 <= n <= 61 -> is_prime n = Ok (small_primeb n).
Proof.
  intros Hn.
  assert (Hall : forallb (fun k => outcome_is (is_prime (Z.of_nat k))
                                     (small_primeb (Z.of_nat k)))
                         (seq 0 62) = true) by (vm_compute; reflexivity).
  rewrite forallb_forall in Hall.
  specialize (Hall (Z.to_nat n)). rewrite Z2Nat.id in Hall by lia.
  assert (Hin : In (Z.to_nat n) (seq 0 62)) by (apply in_seq; lia).
  specialize (Hall Hin). unfold outcome_is in Hall.
  destruct (is_prime n) as [b | f]; [| discriminate].
  apply Bool.eqb_prop in Hall. rewrite Hall. reflexivity.
Qed.

(** Above 61 the trial-division loop either finds a divisor or falls
    through with none of 3, 5, ..., 61 dividing [n]. *)
Lemma trial_loop_large (fuel : nat) :
  forall i n,
    61 < n -> 3 <= i <= 63 -> 63 - i < 2 * Z.of_nat fuel ->
    (trial_loop fuel i n = Ok None /\
     forall k, 0 <= k -> i + 2 * k <= 61 -> n mod (i + 2 * k) <> 0) \/
    (trial_loop fuel i n = Ok (Some false) /\
     exists j, 3 <= j <= 61 /\ n mod j = 0).
Proof.
  induction fuel as [| fuel IH]; intros i n Hn Hi Hf; [lia |].
  cbn [trial_loop].
  destruct (Z.leb_spec i 61) as [Hle | Hgt].
  - destruct (Z.eqb_spec n i) as [| _]; [lia |].
    unfold umod. destruct (Z.eqb_spec i 0) as [| _]; [lia |]. cbn [bind].
    destruct (Z.eqb_spec (n mod i) 0) as [E | E].
    + right. split; [reflexivity |]. exists i. split; [lia | exact E].
    + rewrite u32_small by (unfold in_u32; lia).
      destruct (IH (i + 2) n Hn ltac:(lia) ltac:(lia)) as [[Hr Hk] | [Hr Hj]].
      * left. split; [exact Hr |]. intros k Hk0 Hk61.
        destruct (Z.eq_dec k 0) as [-> | Hk1].
        -- rewrite Z.mul_0_r, Z.add_0_r. exact E.
        -- replace (i + 2 * k) with (i + 2 + 2 * (k - 1)) by lia.
           apply Hk; lia.
      * right. split; assumption.
  - left. split; [reflexivity |]. intros k Hk0 Hk61. lia.
Qed.

(** The shape of a positive verdict above 61. *)
Lemma is_prime_true_large (n : Z) :
  in_u32 n -> 61 < n -> is_prime n = Ok true ->
  Z.odd n = true /\
  (forall j, 3 <= j <= 61 -> Z.odd j = true -> n mod j <> 0) /\
  is_strong_probable_prime 2 n = Ok true /\
  is_strong_probable_prime 7 n = Ok true /\
  is_strong_probable_prime 61 n = Ok true.
Proof.
  intros Hu Hn. unfold is_prime.
  destruct (Z.leb_spec n 2) as [| _]; [lia |].
  rewrite land_1_even, <- Z.negb_odd.
  destruct (Z.odd n) eqn:Hodd; cbn [negb]; [| discriminate].
  destruct (trial_loop_large trial_fuel 3 n Hn ltac:(lia) ltac:(cbn; lia))
    as [[Hr Hk] | [Hr _]]; rewrite Hr; cbn [bind]; [| discriminate].
  intros H. split; [reflexivity |]. split.
  - intros j Hj Hjo.
    replace j with (3 + 2 * ((j - 3) / 2)).
    + apply Hk; [apply Z.div_pos; lia |].
      pose proof (Z.mul_div_le (j - 3) 2). lia.
    + rewrite Zodd_mod in Hjo. apply Z.eqb_eq in Hjo.
      pose proof (Z.div_mod j 2 ltac:(lia)).
      pose proof (Z.div_mod (j - 3) 2 ltac:(lia)).
      pose proof (Z.mod_pos_bound (j - 3) 2 ltac:(lia)). lia.
  - destruct (is_strong_probable_prime 2 n) as [[|] | f]; cbn [bind] in H;
      try discriminate.
    destruct (is_strong_probable_prime 7 n) as [[|] | f]; cbn [bind] in H;
      try discriminate.
    repeat split. exact H.
Qed.

Lemma prime_odd (n : Z) : Z.prime n -> 2 < n -> Z.odd n = true.
Proof.
  intros [_ Hno] Hn. destruct (Z.odd n) eqn:E; [reflexivity | exfalso].
  apply (Hno 2); [lia |].
  rewrite <- Z.negb_even in E. apply negb_false_iff, Z.even_spec in E.
  destruct E as [k Hk]. exists k. lia.
Qed.

(** [is_prime] returns a verdict on every 32-bit input. *)
Lemma is_prime_total (n : Z) : in_u32 n -> exists b, is_prime n = Ok b.
Proof.
  intros Hu. destruct (Z.le_gt_cases n 61) as [Hle | Hgt].
  - exists (small_primeb n). apply is_prime_small. unfold in_u32 in Hu. lia.
  - unfold is_prime. destruct (Z.leb_spec n 2) as [| _]; [lia |].
    destruct (Z.land n 1 =? 0); [eexists; reflexivity |].
    destruct (trial_loop_large trial_fuel 3 n Hgt ltac:(lia) ltac:(cbn; lia))
      as [[Hr _] | [Hr _]]; rewrite Hr; cbn [bind]; [| eexists; reflexivity].
    destruct (sprp_total 2 n ltac:(unfold in_u32; lia) Hu ltac:(lia)) as [b2 H2].
    destruct (sprp_total 7 n ltac:(unfold in_u32; lia) Hu ltac:(lia)) as [b7 H7].
    destruct (sprp_total 61 n ltac:(unfold in_u32; lia) Hu ltac:(lia)) as [b61 H61].
    rewrite H2. cbn [bind]. destruct b2; [| eexists; reflexivity].
    rewrite H7. cbn [bind]. destruct b7; [| eexists; reflexivity].
    rewrite H61. eexists; reflexivity.
Qed.

(** A prime above the base passes the strong test. *)
Lemma sprp_prime (a n : Z) :
  in_u32 n -> Z.prime n -> 1 < a < n -> 2 < n ->
  is_strong_probable_prime a n = Ok true.
Proof.
  intros Hu Hp Ha Hn.
  pose proof (prime_odd n Hp Hn) as Hodd.
  destruct (decomposition n Hu Hn Hodd) as [e [_ [Hdec [Hod [He Hd]]]]].
  assert (Hna : n mod a <> 0).
  { intros Hm. destruct Hp as [_ Hno]. apply (Hno a Ha).
    apply Z.mod_divide; [lia | exact Hm]. }
  destruct (sprp_decides a n ltac:(unfold in_u32 in *; lia) Hu ltac:(lia) Hn
              Hodd Hna _ e ltac:(lia) Hod Hdec) as [b [Hb Hiff]].
  rewrite Hb. f_equal. apply Hiff.
  apply prime_strong_criterion; try assumption; try lia.
  rewrite Z.mod_small; lia.
Qed.

(** No false negative: a prime is reported prime. *)
Lemma is_prime_complete (n : Z) :
  in_u32 n -> Z.prime n -> is_prime n = Ok true.
Proof.
  intros Hu Hp. pose proof (Z.prime_ge_2 n Hp) as H2.
  destruct (Z.le_gt_cases n 61) as [Hle | Hgt].
  - rewrite is_prime_small by lia. f_equal.
    apply small_primeb_spec; [lia | exact Hp].
  - pose proof (prime_odd n Hp ltac:(lia)) as Hodd.
    unfold is_prime. destruct (Z.leb_spec n 2) as [| _]; [lia |].
    rewrite land_1_even, <- Z.negb_odd, Hodd. cbn [negb].
    destruct (trial_loop_large trial_fuel 3 n Hgt ltac:(lia) ltac:(cbn; lia))
      as [[Hr _] | [_ [j [Hj Hm]]]].
    + rewrite Hr. cbn [bind].
      rewrite (sprp_prime 2 n), (sprp_prime 7 n), (sprp_prime 61 n);
        try assumption; try lia. reflexivity.
    + exfalso. destruct Hp as [_ Hno]. apply (Hno j); [lia |].
      apply Z.mod_divide; [lia | exact Hm].
Qed.

(** What a positive verdict on a number above 61 entails: the number is
    odd, has no divisor among 2, ..., 61, and passes the Fermat test for the
    bases 2, 7 and 61. *)
Lemma is_prime_true_fermat (n : Z) :
  in_u32 n -> 61 < n -> is_prime n = Ok true ->
  (forall d, 1 < d <= 61 -> ~ (d | n)) /\ unit_power3 n (n - 1).
Proof.
  intros Hu Hn Hv.
  destruct (is_prime_true_large n Hu Hn Hv) as [Hodd [Htrial [H2 [H7 H61]]]].
  destruct (decomposition n Hu ltac:(lia) Hodd) as [e [_ [Hdec [Hod [He Hdn]]]]].
  assert (Hnodd : forall j, 3 <= j <= 61 -> Z.odd j = true -> ~ (j | n)).
  { intros j Hj Hjo Hdiv. apply (Htrial j Hj Hjo).
    apply Z.mod_divide; [lia | exact Hdiv]. }
  assert (Hn2 : ~ (2 | n)).
  { intros [k Hk]. rewrite Hk, Z.odd_mul in Hodd. cbn in Hodd.
    rewrite andb_false_r in Hodd. discriminate. }
  split.
  - intros d Hd Hdiv.
    (* a divisor has a prime divisor, which is 2 or odd *)
    destruct (exists_prime_divisor d ltac:(lia)) as [r [Hr Hrd]].
    pose proof (Z.prime_ge_2 r Hr) as Hr2.
    assert (Hrn : (r | n)) by (apply (Z.divide_trans _ d); assumption).
    assert (Hrle : r <= d) by (apply Z.divide_pos_le; [lia | exact Hrd]).
    destruct (Z.eq_dec r 2) as [-> | Hne]; [exact (Hn2 Hrn) |].
    apply (Hnodd r); [lia | apply prime_odd; [exact Hr | lia] | exact Hrn].
  - assert (Hcrit : forall a, 1 < a <= 61 -> in_u32 a ->
              is_strong_probable_prime a n = Ok true -> unit_power a n (n - 1)).
    { intros a Ha Hau Hs.
      assert (Hna : n mod a <> 0).
      { intros Hm. destruct (exists_prime_divisor a ltac:(lia)) as [r [Hr Hra]].
        pose proof (Z.prime_ge_2 r Hr) as Hr2.
        assert (Hrle : r <= a) by (apply Z.divide_pos_le; [lia | exact Hra]).
        assert (Hrn : (r | n)).
        { apply (Z.divide_trans _ a); [exact Hra |].
          apply Z.mod_divide; [lia | exact Hm]. }
        destruct (Z.eq_dec r 2) as [-> | Hne]; [exact (Hn2 Hrn) |].
        apply (Hnodd r); [lia | apply prime_odd; [exact Hr | lia] | exact Hrn]. }
      destruct (sprp_decides a n Hau Hu ltac:(lia) ltac:(lia) Hodd Hna _ e
                  ltac:(lia) Hod Hdec) as [b [Hb Hiff]].
      rewrite Hs in Hb. injection Hb as <-.
      apply (strong_criterion_fermat a n (Z.shiftr (u32 (n - 1)) e) e);
        try lia.
      apply Hiff. reflexivity. }
    repeat split; apply Hcrit; try assumption; try lia; unfold in_u32; lia.
Qed.

(** Fermat's little theorem for the three witness bases. *)
Lemma prime_unit_power3 (p : Z) :
  Z.prime p -> 61 < p -> unit_power3 p (p - 1).
Proof.
  intros Hp H61. unfold unit_power3, unit_power.
  repeat split; apply ZmodInv.Z.fermat_nz; try exact Hp;
    rewrite Z.mod_small; lia.
Qed.

(** * The machine-integer functions compute what the model computes *)

Lemma wB_value : wB = 2 ^ 63.
Proof. reflexivity. Qed.

Lemma int_eqb_Z (x y : int) : (x =? y)%uint63 = (to_Z x =? to_Z y).
Proof.
  destruct (eqbP x y) as [E | E]; symmetry;
    [apply Z.eqb_eq | apply Z.eqb_neq]; exact E.
Qed.

Lemma int_ltb_Z (x y : int) : (x <? y)%uint63 = (to_Z x <? to_Z y).
Proof.
  destruct (ltbP x y) as [E | E]; symmetry;
    [apply Z.ltb_lt | apply Z.ltb_ge]; lia.
Qed.

Lemma int_leb_Z (x y : int) : (x <=? y)%uint63 = (to_Z x <=? to_Z y).
Proof.
  destruct (lebP x y) as [E | E]; symmetry;
    [apply Z.leb_le | apply Z.leb_gt]; lia.
Qed.

Lemma to_Z_add_small (x y : int) :
  to_Z x + to_Z y < 2 ^ 63 -> to_Z (x + y) = to_Z x + to_Z y.
Proof.
  intros H. rewrite add_spec, wB_value.
  pose proof (to_Z_bounded x). pose proof (to_Z_bounded y).
  apply Z.mod_small. lia.
Qed.

Lemma to_Z_sub_small (x y : int) :
  to_Z y <= to_Z x -> to_Z (x - y) = to_Z x - to_Z y.
Proof.
  intros H. rewrite sub_spec, wB_value.
  pose proof (to_Z_bounded x) as Hx. pose proof (to_Z_bounded y).
  rewrite wB_value in Hx. apply Z.mod_small. lia.
Qed.

Lemma to_Z_mul_small (x y : int) :
  to_Z x * to_Z y < 2 ^ 63 -> to_Z (x * y) = to_Z x * to_Z y.
Proof.
  intros H. rewrite mul_spec, wB_value.
  pose proof (to_Z_bounded x). pose proof (to_Z_bounded y).
  apply Z.mod_small. nia.
Qed.

Lemma to_Z_half (x : int) : to_Z (x >> 1) = to_Z x / 2.
Proof. rewrite lsr_spec. reflexivity. Qed.

Lemma to_Z_land_1 (x : int) : to_Z (x land 1) = Z.land (to_Z x) 1.
Proof. rewrite land_spec'. reflexivity. Qed.

Lemma int_even_Z (x : int) :
  ((x land 1) =? 0)%uint63 = (Z.land (to_Z x) 1 =? 0).
Proof. rewrite int_eqb_Z, to_Z_land_1. reflexivity. Qed.

(** Bounds used to rule out overflow. *)
Lemma mul_bound (x y bx by_ : Z) :
  0 <= x < bx -> 0 <= y < by_ -> 0 <= x * y < bx * by_.
Proof. nia. Qed.

Lemma mulm_spec (x y m : int) :
  to_Z x < 2 ^ 31 -> to_Z y < 2 ^ 31 ->
  to_Z (Fast.mulm x y m) = (to_Z x * to_Z y) mod to_Z m.
Proof.
  intros Hx Hy. unfold Fast.mulm.
  pose proof (to_Z_bounded x). pose proof (to_Z_bounded y).
  rewrite mod_spec, to_Z_mul_small; [reflexivity |].
  pose proof (mul_bound (to_Z x) (to_Z y) (2 ^ 31) (2 ^ 31)). lia.
Qed.

Lemma mulmod_spec (x y m : int) :
  to_Z x < 2 ^ 32 -> to_Z y < 2 ^ 32 -> 0 < to_Z m < 2 ^ 32 ->
  to_Z (Fast.mulmod x y m) = (to_Z x * to_Z y) mod to_Z m.
Proof.
  intros Hx Hy Hm. unfold Fast.mulmod.
  pose proof (to_Z_bounded x) as Bx. pose proof (to_Z_bounded y) as By.
  assert (Hh : to_Z (y >> 16) = to_Z y / 2 ^ 16) by (rewrite lsr_spec; reflexivity).
  assert (Hl : to_Z (y land 65535) = to_Z y mod 2 ^ 16).
  { rewrite land_spec'. change (to_Z 65535) with (Z.ones 16).
    apply Z.land_ones. lia. }
  assert (Bh : 0 <= to_Z y / 2 ^ 16 < 2 ^ 16).
  { split; [apply Z.div_pos; lia | apply Z.div_lt_upper_bound; lia]. }
  assert (Bl : 0 <= to_Z y mod 2 ^ 16 < 2 ^ 16) by (apply Z.mod_pos_bound; lia).
  assert (B1 : 0 <= to_Z x * (to_Z y / 2 ^ 16) < 2 ^ 32 * 2 ^ 16)
    by (apply mul_bound; lia).
  assert (B2 : 0 <= to_Z x * (to_Z y mod 2 ^ 16) < 2 ^ 32 * 2 ^ 16)
    by (apply mul_bound; lia).
  assert (E1 : to_Z (x * (y >> 16)) = to_Z x * (to_Z y / 2 ^ 16)).
  { rewrite to_Z_mul_small; rewrite Hh; [reflexivity | lia]. }
  assert (B3 : 0 <= (to_Z x * (to_Z y / 2 ^ 16)) mod to_Z m < to_Z m)
    by (apply Z.mod_pos_bound; lia).
  assert (E2 : to_Z (((x * (y >> 16)) mod m) << 16) =
               (to_Z x * (to_Z y / 2 ^ 16)) mod to_Z m * 2 ^ 16).
  { rewrite lsl_spec, mod_spec, E1, wB_value. change (to_Z 16) with 16.
    apply Z.mod_small. lia. }
  assert (E3 : to_Z (x * (y land 65535)) = to_Z x * (to_Z y mod 2 ^ 16)).
  { rewrite to_Z_mul_small; rewrite Hl; [reflexivity | lia]. }
  rewrite mod_spec, to_Z_add_small; rewrite E2, E3; [| lia].
  rewrite Z.add_mod, Z.mul_mod_idemp_l, <- Z.add_mod by lia.
  f_equal. rewrite (Z.div_mod (to_Z y) (2 ^ 16)) at 3 by lia. ring.
Qed.

(** [pow_loop] follows the model's loop step for step. *)
Lemma pow_loop_refines (mul : int -> int -> int -> int) (m : int) :
  (forall x y, to_Z x < to_Z m -> to_Z y < to_Z m ->
               to_Z (mul x y m) = (to_Z x * to_Z y) mod to_Z m) ->
  1 < to_Z m < 2 ^ 32 ->
  forall fuel power result e v,
    to_Z power < to_Z m -> to_Z result < to_Z m ->
    powmod_loop fuel (to_Z power) (to_Z result) (to_Z e) (to_Z m) = Ok v ->
    to_Z (Fast.pow_loop mul fuel power result e m) = v.
Proof.
  intros Hmul Hm. induction fuel as [| fuel IH];
    intros power result e v Hp Hr Hv; cbn [powmod_loop Fast.pow_loop] in *.
  - discriminate.
  - rewrite int_eqb_Z. change (to_Z 0) with 0.
    destruct (to_Z e =? 0); [injection Hv as <-; reflexivity |].
    pose proof (to_Z_bounded power) as Bp. pose proof (to_Z_bounded result) as Br.
    assert (Hpu : in_u32 (to_Z power)) by (unfold in_u32; lia).
    assert (Hru : in_u32 (to_Z result)) by (unfold in_u32; lia).
    rewrite (mulmod_exact _ _ _ Hpu Hpu) in Hv by lia.
    rewrite (mulmod_exact _ _ _ Hru Hpu) in Hv by lia.
    rewrite int_even_Z.
    assert (Bpp : 0 <= (to_Z power * to_Z power) mod to_Z m < to_Z m)
      by (apply Z.mod_pos_bound; lia).
    assert (Brp : 0 <= (to_Z result * to_Z power) mod to_Z m < to_Z m)
      by (apply Z.mod_pos_bound; lia).
    rewrite shiftr_1_half, <- to_Z_half, <- (Hmul power power) in Hv by lia.
    destruct (Z.land (to_Z e) 1 =? 0); cbn [bind] in Hv.
    + apply IH; [rewrite Hmul; lia | exact Hr | exact Hv].
    + rewrite <- (Hmul result power) in Hv by lia.
      apply IH; [rewrite Hmul; lia | rewrite Hmul; lia | exact Hv].
Qed.

Lemma pow_loop_value (mul : int -> int -> int -> int) (base e m : int) :
  (forall x y, to_Z x < to_Z m -> to_Z y < to_Z m ->
               to_Z (mul x y m) = (to_Z x * to_Z y) mod to_Z m) ->
  1 < to_Z m < 2 ^ 32 -> to_Z base < 2 ^ 32 -> to_Z e < 2 ^ 32 ->
  to_Z (Fast.pow_loop mul powmod_fuel (base mod m) 1 e m) =
  to_Z base ^ to_Z e mod to_Z m.
Proof.
  intros Hmul Hm Hb He.
  pose proof (to_Z_bounded base) as Bb. pose proof (to_Z_bounded e) as Be.
  pose proof (powmod_value_gt1 (to_Z base) (to_Z e) (to_Z m)
                ltac:(unfold in_u32; lia) ltac:(unfold in_u32; lia) Hm) as Hval.
  unfold powmod, umod in Hval. destruct (Z.eqb_spec (to_Z m) 0); [lia |].
  cbn [bind] in Hval.
  assert (Bm : 0 <= to_Z base mod to_Z m < to_Z m) by (apply Z.mod_pos_bound; lia).
  apply (pow_loop_refines mul m Hmul Hm).
  - rewrite mod_spec. lia.
  - change (to_Z 1) with 1. lia.
  - rewrite mod_spec. change (to_Z 1) with 1. exact Hval.
Qed.

Lemma powm_spec (a k q : int) :
  1 < to_Z q < 2 ^ 31 -> to_Z a < 2 ^ 32 -> to_Z k < 2 ^ 32 ->
  to_Z (Fast.powm a k q) = to_Z a ^ to_Z k mod to_Z q.
Proof.
  intros Hq Ha Hk. unfold Fast.powm.
  apply pow_loop_value; try lia.
  intros x y Hx Hy. apply mulm_spec; lia.
Qed.

Lemma fast_powmod_value (a k n : int) :
  1 < to_Z n < 2 ^ 32 -> to_Z a < 2 ^ 32 -> to_Z k < 2 ^ 32 ->
  to_Z (Fast.powmod a k n) = to_Z a ^ to_Z k mod to_Z n.
Proof.
  intros Hn Ha Hk. unfold Fast.powmod.
  apply pow_loop_value; try lia.
  intros x y Hx Hy. apply mulmod_spec; lia.
Qed.

Lemma fast_powmod_spec (a k n : int) :
  1 < to_Z n < 2 ^ 32 -> to_Z a < 2 ^ 32 -> to_Z k < 2 ^ 32 ->
  powmod (to_Z a) (to_Z k) (to_Z n) = Ok (to_Z (Fast.powmod a k n)).
Proof.
  intros Hn Ha Hk. rewrite fast_powmod_value by assumption.
  pose proof (to_Z_bounded a). pose proof (to_Z_bounded k).
  apply powmod_value_gt1; unfold in_u32; lia.
Qed.

Lemma fast_sprp_loop_refines (fuel : nat) :
  forall left power n,
    2 < to_Z n < 2 ^ 32 -> to_Z power < to_Z n ->
    to_Z left <= Z.of_nat fuel ->
    sprp_loop (Z.to_nat (to_Z left)) (to_Z power) (to_Z n) =
    Ok (Fast.sprp_loop fuel left power n).
Proof.
  induction fuel as [| fuel IH]; intros left power n Hn Hp Hl;
    pose proof (to_Z_bounded left) as Bl; cbn [Fast.sprp_loop].
  - replace (to_Z left) with 0 by lia. reflexivity.
  - rewrite int_eqb_Z. change (to_Z 0) with 0.
    destruct (Z.eqb_spec (to_Z left) 0) as [E | E].
    + rewrite E. reflexivity.
    + assert (Hl1 : to_Z (left - 1) = to_Z left - 1).
      { rewrite to_Z_sub_small; change (to_Z 1) with 1; lia. }
      replace (Z.to_nat (to_Z left)) with (S (Z.to_nat (to_Z (left - 1))))
        by (rewrite Hl1; lia).
      cbn [sprp_loop].
      pose proof (to_Z_bounded power) as Bp.
      assert (Hn1 : to_Z (n - 1) = to_Z n - 1).
      { rewrite to_Z_sub_small; change (to_Z 1) with 1; lia. }
      rewrite u32_small by (unfold in_u32; lia).
      rewrite int_eqb_Z, Hn1.
      destruct (to_Z power =? to_Z n - 1); [reflexivity |].
      assert (Hpu : in_u32 (to_Z power)) by (unfold in_u32; lia).
      rewrite (mulmod_exact _ _ _ Hpu Hpu) by lia. cbn [bind].
      rewrite <- (mulmod_spec power power n) by lia.
      apply IH; [exact Hn | | lia].
      rewrite mulmod_spec by lia. apply Z.mod_pos_bound. lia.
Qed.

Lemma tail0_decomp (x : int) :
  0 < to_Z x ->
  to_Z x = to_Z (x >> tail0 x) * 2 ^ to_Z (tail0 x) /\
  Z.odd (to_Z (x >> tail0 x)) = true.
Proof.
  intros Hx. destruct (tail0_spec x Hx) as [y [Hy E]].
  pose proof (to_Z_bounded (tail0 x)) as Bt.
  assert (Hpow : 0 < 2 ^ to_Z (tail0 x)) by (apply Z.pow_pos_nonneg; lia).
  assert (Hq : to_Z (x >> tail0 x) = 2 * y + 1).
  { rewrite lsr_spec, E. apply Z.div_mul. lia. }
  rewrite Hq. split; [exact E |].
  rewrite Z.odd_add, Z.odd_mul. reflexivity.
Qed.

Lemma fast_sprp_refines (a n : int) :
  0 < to_Z a < 2 ^ 32 -> to_Z n < 2 ^ 32 ->
  is_strong_probable_prime (to_Z a) (to_Z n) =
  Ok (Fast.is_strong_probable_prime a n).
Proof.
  intros Ha Hn. pose proof (to_Z_bounded n) as Bn.
  unfold is_strong_probable_prime, Fast.is_strong_probable_prime.
  rewrite int_even_Z, int_leb_Z, !int_eqb_Z, mod_spec.
  change (to_Z 2) with 2. change (to_Z 0) with 0. change (to_Z 1) with 1.
  destruct (Z.leb_spec (to_Z n) 2) as [| Hgt]; [reflexivity |].
  rewrite land_1_even.
  destruct (Z.even (to_Z n)) eqn:Hev; [reflexivity |].
  unfold umod at 1. destruct (Z.eqb_spec (to_Z a) 0); [lia |]. cbn [bind].
  destruct (to_Z n mod to_Z a =? 0); [reflexivity |].
  assert (Hodd : Z.odd (to_Z n) = true) by (rewrite <- Z.negb_even, Hev; reflexivity).
  assert (Hu : in_u32 (to_Z n)) by (unfold in_u32; lia).
  destruct (decomposition (to_Z n) Hu Hgt Hodd) as [e [Hctz [Hdec [Hod [He Hd]]]]].
  assert (Hn1 : to_Z (n - 1) = to_Z n - 1).
  { rewrite to_Z_sub_small; change (to_Z 1) with 1; lia. }
  destruct (tail0_decomp (n - 1) ltac:(lia)) as [Ht Hto].
  pose proof (to_Z_bounded (tail0 (n - 1))) as Bt.
  rewrite Hn1, Hdec in Ht.
  destruct (odd_pow2_decomp_unique
              (Z.shiftr (u32 (to_Z n - 1)) e) e
              (to_Z ((n - 1) >> tail0 (n - 1))) (to_Z (tail0 (n - 1))))
    as [Ed Ee]; [lia | lia | exact Hod | exact Hto | exact Ht |].
  assert (Hk : to_Z ((n - 1) >> tail0 (n - 1)) < 2 ^ 32) by (rewrite <- Ed; lia).
  pose proof (fast_powmod_value a _ n ltac:(lia) ltac:(lia) Hk) as E1.
  pose proof (fast_powmod_spec a _ n ltac:(lia) ltac:(lia) Hk) as E2.
  rewrite Hctz. cbn [bind]. rewrite Ed, Ee, E2. cbn [bind]. cbv zeta.
  destruct (_ =? 1); [reflexivity |].
  apply fast_sprp_loop_refines; [lia | | change (Z.of_nat 64) with 64; lia].
  rewrite E1. apply Z.mod_pos_bound. lia.
Qed.

Lemma fast_trial_refines (fuel : nat) :
  forall i n r,
    0 < to_Z i <= 63 -> to_Z n < 2 ^ 32 ->
    trial_loop fuel (to_Z i) (to_Z n) = Ok r ->
    Fast.trial_loop fuel i n = r.
Proof.
  induction fuel as [| fuel IH]; intros i n r Hi Hn Hr;
    cbn [trial_loop Fast.trial_loop] in *; [discriminate |].
  rewrite int_leb_Z, !int_eqb_Z, mod_spec.
  change (to_Z 61) with 61. change (to_Z 0) with 0.
  destruct (to_Z i <=? 61) eqn:Hle; [| injection Hr as <-; reflexivity].
  destruct (to_Z n =? to_Z i); [injection Hr as <-; reflexivity |].
  unfold umod in Hr. destruct (Z.eqb_spec (to_Z i) 0); [lia |]. cbn [bind] in Hr.
  destruct (to_Z n mod to_Z i =? 0); [injection Hr as <-; reflexivity |].
  apply Z.leb_le in Hle.
  assert (Hi2 : to_Z (i + 2) = to_Z i + 2).
  { rewrite to_Z_add_small; change (to_Z 2) with 2; lia. }
  rewrite u32_small, <- Hi2 in Hr by (unfold in_u32; lia).
  apply IH; [lia | exact Hn | exact Hr].
Qed.

(** The machine-integer [is_prime] agrees with the model on 32 bits. *)
Lemma fast_is_prime_refines (n : int) :
  to_Z n < 2 ^ 32 -> is_prime (to_Z n) = Ok (Fast.is_prime n).
Proof.
  intros Hn. pose proof (to_Z_bounded n) as Bn.
  destruct (is_prime_total (to_Z n)) as [b Hb]; [unfold in_u32; lia |].
  rewrite Hb. f_equal. revert Hb.
  unfold is_prime, Fast.is_prime.
  rewrite int_even_Z, int_leb_Z, int_eqb_Z.
  change (to_Z 2) with 2.
  destruct (to_Z n <=? 2); [intros H; injection H as <-; reflexivity |].
  destruct (Z.land (to_Z n) 1 =? 0); [intros H; injection H as <-; reflexivity |].
  destruct (trial_loop trial_fuel 3 (to_Z n)) as [t | f] eqn:Ht; cbn [bind];
    [| discriminate].
  rewrite (fast_trial_refines trial_fuel 3 n t); [| cbn; lia | exact Hn | exact Ht].
  destruct t as [b' |]; [intros H; injection H as <-; reflexivity |].
  pose proof (fast_sprp_refines 2 n ltac:(change (to_Z 2) with 2; lia) Hn) as S2.
  pose proof (fast_sprp_refines 7 n ltac:(change (to_Z 7) with 7; lia) Hn) as S7.
  pose proof (fast_sprp_refines 61 n ltac:(change (to_Z 61) with 61; lia) Hn) as S61.
  change (to_Z 2) with 2 in S2. change (to_Z 7) with 7 in S7.
  change (to_Z 61) with 61 in S61.
  rewrite S2, S7, S61. cbn [bind].
  destruct (Fast.is_strong_probable_prime 2 n); cbn [bind];
    [| intros H; injection H as <-; reflexivity].
  destruct (Fast.is_strong_probable_prime 7 n); cbn [bind];
    intros H; injection H as <-; reflexivity.
Qed.

Lemma to_Z_pow2_small (k : int) :
  to_Z k <= 61 -> to_Z (1 << k) = 2 ^ to_Z k.
Proof.
  intros Hk. pose proof (to_Z_bounded k) as Bk.
  rewrite lsl_spec, wB_value. change (to_Z 1) with 1. rewrite Z.mul_1_l.
  apply Z.mod_small. split; [apply Z.pow_nonneg; lia |].
  apply Z.pow_lt_mono_r; lia.
Qed.

Lemma pow2_spec (fuel : nat) :
  forall k m,
    1 < to_Z m < 2 ^ 31 -> to_Z k < 62 * 2 ^ Z.of_nat fuel ->
    to_Z (Fast.pow2 fuel k m) = 2 ^ to_Z k mod to_Z m.
Proof.
  induction fuel as [| fuel IH]; intros k m Hm Hk;
    pose proof (to_Z_bounded k) as Bk; cbn [Fast.pow2].
  - rewrite mod_spec, to_Z_pow2_small; [reflexivity |].
    change (2 ^ Z.of_nat 0) with 1 in Hk. lia.
  - rewrite int_leb_Z. change (to_Z 61) with 61.
    destruct (Z.leb_spec (to_Z k) 61) as [Hle | Hgt].
    + rewrite mod_spec, to_Z_pow2_small; [reflexivity | exact Hle].
    + assert (Hhalf : to_Z (k >> 1) < 62 * 2 ^ Z.of_nat fuel).
      { rewrite to_Z_half. apply Z.div_lt_upper_bound; [lia |].
        rewrite Nat2Z.inj_succ, Z.pow_succ_r in Hk; lia. }
      specialize (IH (k >> 1)%uint63 m Hm Hhalf). rewrite to_Z_half in IH.
      set (h := Fast.pow2 fuel (k >> 1)%uint63 m) in *.
      assert (Bh : 0 <= to_Z h < to_Z m) by (rewrite IH; apply Z.mod_pos_bound; lia).
      assert (Bhh : 0 <= to_Z h * to_Z h < 2 ^ 31 * 2 ^ 31) by (apply mul_bound; lia).
      assert (Eh2 : to_Z ((h * h) mod m) = 2 ^ (2 * (to_Z k / 2)) mod to_Z m).
      { rewrite mod_spec, to_Z_mul_small by lia.
        rewrite IH, <- Z.mul_mod, <- Z.pow_add_r
          by (try apply Z.div_pos; lia).
        do 2 f_equal. lia. }
      assert (B2 : 0 <= to_Z ((h * h) mod m) < to_Z m)
        by (rewrite Eh2; apply Z.mod_pos_bound; lia).
      rewrite int_even_Z, land_1_even.
      pose proof (Z.div_mod (to_Z k) 2 ltac:(lia)) as Hdm.
      destruct (Z.even (to_Z k)) eqn:Ev.
      * rewrite Eh2. do 2 f_equal.
        rewrite Zeven_mod in Ev. apply Z.eqb_eq in Ev. lia.
      * rewrite mod_spec, to_Z_mul_small; change (to_Z 2) with 2; [| lia].
        rewrite Eh2, Z.mul_mod_idemp_r by lia.
        rewrite <- Z.pow_succ_r by (apply Z.mul_nonneg_nonneg; [| apply Z.div_pos]; lia).
        do 2 f_equal.
        rewrite Zeven_mod in Ev. apply Z.eqb_neq in Ev.
        pose proof (Z.mod_pos_bound (to_Z k) 2 ltac:(lia)). lia.
Qed.

(** ** Bounded iteration *)

Lemma iterate_inv {St : Type} (body : St -> Fast.step St)
      (Inv : St -> Prop) (Post : Prop) :
  (forall s, Inv s ->
             match body s with
             | Fast.Next s' => Inv s'
             | Fast.Stop b => b = true -> Post
             end) ->
  forall d s, Inv s ->
              match Fast.iterate body d s with
              | Fast.Next s' => Inv s'
              | Fast.Stop b => b = true -> Post
              end.
Proof.
  intros Hbody. induction d as [| d IH]; intros s Hs; cbn [Fast.iterate].
  - apply Hbody. exact Hs.
  - pose proof (IH s Hs) as H1.
    destruct (Fast.iterate body d s) as [s' | b]; [apply IH; exact H1 | exact H1].
Qed.

(** Every term of the progression up to [last] satisfies [P]. *)
Lemma run_progression_spec (d : nat) (P : int -> bool)
      (start stride last : int) :
  0 < to_Z stride -> to_Z last + to_Z stride < 2 ^ 63 ->
  Fast.run_progression d P start stride last = true ->
  forall j x, 0 <= j -> to_Z x = to_Z start + j * to_Z stride ->
              to_Z x <= to_Z last -> P x = true.
Proof.
  intros Hs Hb Hall.
  set (Inv := fun n : int =>
         (exists j0, 0 <= j0 /\ to_Z n = to_Z start + j0 * to_Z stride) /\
         forall j x, 0 <= j -> to_Z x = to_Z start + j * to_Z stride ->
                     to_Z x < to_Z n -> P x = true).
  set (Post := forall j x, 0 <= j -> to_Z x = to_Z start + j * to_Z stride ->
                           to_Z x <= to_Z last -> P x = true).
  assert (Hbody : forall n, Inv n ->
            match Fast.progression_body P stride last n with
            | Fast.Next n' => Inv n'
            | Fast.Stop b => b = true -> Post
            end).
  { intros n [[j0 [Hj0 En]] Hbelow]. unfold Fast.progression_body.
    rewrite int_leb_Z.
    destruct (Z.leb_spec (to_Z n) (to_Z last)) as [Hle | Hgt].
    - destruct (P n) eqn:HPn; [| discriminate].
      assert (En' : to_Z (n + stride) = to_Z n + to_Z stride)
        by (apply to_Z_add_small; lia).
      split.
      + exists (j0 + 1). split; [lia |]. rewrite En', En. ring.
      + intros j x Hj Ex Hlt. rewrite En' in Hlt.
        destruct (Z.lt_trichotomy j j0) as [Hc | [Hc | Hc]].
        * apply (Hbelow j x Hj Ex). nia.
        * subst j. rewrite <- En in Ex. apply to_Z_inj in Ex. subst x. exact HPn.
        * exfalso. nia.
    - intros _ j x Hj Ex Hxl. apply (Hbelow j x Hj Ex). lia. }
  assert (Hinit : Inv start).
  { split; [exists 0; lia |]. intros j x Hj Ex Hlt. exfalso. nia. }
  pose proof (iterate_inv _ Inv Post Hbody d start Hinit) as Hrun.
  unfold Fast.run_progression in Hall.
  destruct (Fast.iterate _ d start) as [n' | b]; [discriminate |].
  exact (Hrun Hall).
Qed.

(** ** Orders *)

Lemma unit3_spec (q k : int) :
  1 < to_Z q < 2 ^ 31 -> to_Z k < 2 ^ 32 ->
  (Fast.unit3 q k = true <-> unit_power3 (to_Z q) (to_Z k)).
Proof.
  intros Hq Hk. unfold Fast.unit3, unit_power3, unit_power.
  rewrite !andb_true_iff, !int_eqb_Z.
  rewrite !powm_spec by (assumption || (cbn; lia)).
  change (to_Z 1) with 1. change (to_Z 2) with 2.
  change (to_Z 7) with 7. change (to_Z 61) with 61.
  rewrite !Z.eqb_eq. tauto.
Qed.

Section OrderLoop.

Variable q : int.
Let p : Z := to_Z q.
Let P : Z -> Prop := unit_power3 p.

Hypothesis Hp : 1 < p < 2 ^ 16.

Lemma unit3_multiples : forall N k, 0 <= N -> 0 <= k -> P N -> P (N * k).
Proof. intros N k HN Hk. apply unit_power3_mul; lia. Qed.

Lemma shrink_spec (d k : int) (rest : Z) :
  Z.prime (to_Z d) -> (to_Z d | rest) ->
  0 < to_Z k < 2 ^ 16 -> P (to_Z k) -> (to_Z k | p - 1) ->
  reduced P (to_Z k) rest ->
  0 < to_Z (Fast.shrink q d k) < 2 ^ 16 /\
  P (to_Z (Fast.shrink q d k)) /\
  (to_Z (Fast.shrink q d k) | p - 1) /\
  reduced P (to_Z (Fast.shrink q d k)) (rest / to_Z d).
Proof.
  intros Hd Hdr Hk HPk Hkp Hred.
  pose proof (Z.prime_ge_2 _ Hd) as Hd2.
  unfold Fast.shrink.
  assert (Hdiv : to_Z (k / d) = to_Z k / to_Z d) by apply div_spec.
  assert (Bdiv : 0 <= to_Z k / to_Z d <= to_Z k).
  { split; [apply Z.div_pos; lia |].
    apply Z.div_le_upper_bound; [lia | nia]. }
  rewrite int_eqb_Z, mod_spec. change (to_Z 0) with 0.
  destruct (Z.eqb_spec (to_Z k mod to_Z d) 0) as [Hm | Hm]; cbn [andb].
  - apply Z.mod_divide in Hm; [| lia].
    destruct (Fast.unit3 q (k / d)) eqn:Hu.
    + apply unit3_spec in Hu; [| fold p; lia | rewrite Hdiv; lia].
      rewrite Hdiv in *. fold p in Hu. fold P in Hu.
      destruct Hm as [c Hc].
      assert (Ec : to_Z k / to_Z d = c) by (rewrite Hc; apply Z.div_mul; lia).
      split; [rewrite Ec; nia |]. split; [exact Hu |]. split.
      * apply (Z.divide_trans _ (to_Z k)); [| exact Hkp].
        exists (to_Z d). rewrite Ec. lia.
      * apply reduced_shrink; try assumption; try lia.
        -- apply unit3_multiples.
        -- exists c. exact Hc.
    + split; [exact Hk |]. split; [exact HPk |]. split; [exact Hkp |].
      apply reduced_keep; try assumption.
      intros _ HP'. 
      assert (Hu' : Fast.unit3 q (k / d) = true).
      { apply unit3_spec; [fold p; lia | rewrite Hdiv; lia |].
        rewrite Hdiv. exact HP'. }
      rewrite Hu in Hu'. discriminate.
  - split; [exact Hk |]. split; [exact HPk |]. split; [exact Hkp |].
    apply reduced_keep; try assumption.
    intros Hdk. exfalso. apply Hm. apply Z.mod_divide; [lia | exact Hdk].
Qed.

Lemma order_loop_spec (fuel : nat) :
  forall d k rest,
    2 <= to_Z d <= 2 ^ 16 -> 0 < to_Z rest < 2 ^ 16 ->
    0 < to_Z k < 2 ^ 16 -> P (to_Z k) -> (to_Z k | p - 1) ->
    (forall x, 1 < x < to_Z d -> ~ (x | to_Z rest)) ->
    reduced P (to_Z k) (to_Z rest) ->
    to_Z (Fast.order_loop fuel q d k rest) <> 0 ->
    0 < to_Z (Fast.order_loop fuel q d k rest) /\
    P (to_Z (Fast.order_loop fuel q d k rest)) /\
    (to_Z (Fast.order_loop fuel q d k rest) | p - 1) /\
    forall r, Z.prime r -> (r | to_Z (Fast.order_loop fuel q d k rest)) ->
              ~ P (to_Z (Fast.order_loop fuel q d k rest) / r).
Proof.
  induction fuel as [| fuel IH];
    intros d k rest Hd Hrest Hk HPk Hkp Hsmall Hred; cbn [Fast.order_loop].
  - intros H. exfalso. apply H. reflexivity.
  - assert (Hdd : to_Z (d * d) = to_Z d * to_Z d).
    { apply to_Z_mul_small.
      pose proof (mul_bound (to_Z d) (to_Z d) (2 ^ 17) (2 ^ 17)). lia. }
    rewrite !int_ltb_Z, int_eqb_Z, mod_spec, Hdd.
    change (to_Z 1) with 1. change (to_Z 0) with 0.
    destruct (Z.ltb_spec (to_Z rest) (to_Z d * to_Z d)) as [Hlt | Hge].
    + (* what remains is 1 or a prime *)
      destruct (Z.ltb_spec 1 (to_Z rest)) as [H1 | H1].
      * assert (Hprime : Z.prime (to_Z rest)).
        { apply prime_no_small_divisor; [exact H1 |].
          intros x Hx Hsq. apply Hsmall. nia. }
        destruct (shrink_spec rest k (to_Z rest) Hprime (Z.divide_refl _)
                    Hk HPk Hkp Hred) as [A [B [C D]]].
        rewrite Z.div_same in D by lia.
        intros _. split; [lia |]. split; [exact B |]. split; [exact C |].
        apply (reduced_done P). exact D.
      * assert (E1 : to_Z rest = 1) by lia. rewrite E1 in Hred.
        intros _. split; [lia |]. split; [exact HPk |]. split; [exact Hkp |].
        apply (reduced_done P). exact Hred.
    + destruct (Z.eqb_spec (to_Z rest mod to_Z d) 0) as [Hm | Hm].
      * apply Z.mod_divide in Hm; [| lia].
        assert (Hprime : Z.prime (to_Z d)).
        { split; [lia |]. intros x Hx Hxd. apply (Hsmall x Hx).
          apply (Z.divide_trans _ (to_Z d)); assumption. }
        destruct (shrink_spec d k (to_Z rest) Hprime Hm Hk HPk Hkp Hred)
          as [A [B [C D]]].
        destruct Hm as [c Hc].
        assert (Ec : to_Z rest / to_Z d = c) by (rewrite Hc; apply Z.div_mul; lia).
        assert (Hrd : to_Z (rest / d) = c) by (rewrite div_spec; exact Ec).
        apply IH; try assumption.
        -- rewrite Hrd. nia.
        -- rewrite Hrd. intros x Hx [y Hy]. apply (Hsmall x Hx).
           exists (y * to_Z d). rewrite Hc, Hy. ring.
        -- rewrite Hrd, <- Ec. exact D.
      * assert (Hd1 : to_Z (d + 1) = to_Z d + 1).
        { rewrite to_Z_add_small; change (to_Z 1) with 1; lia. }
        apply IH; try assumption.
        -- rewrite Hd1. nia.
        -- rewrite Hd1. intros x Hx Hdiv.
           destruct (Z.eq_dec x (to_Z d)) as [-> | Hne].
           ++ apply Hm. apply Z.mod_divide; [lia | exact Hdiv].
           ++ apply (Hsmall x); [lia | exact Hdiv].
Qed.

Lemma order3_good (fuel : nat) :
  P (p - 1) -> to_Z (Fast.order3 fuel q) <> 0 ->
  good_entry p (to_Z (Fast.order3 fuel q)).
Proof.
  intros HP Hnz. unfold Fast.order3 in *.
  assert (Hq1 : to_Z (q - 1) = p - 1).
  { rewrite to_Z_sub_small; change (to_Z 1) with 1; fold p; lia. }
  destruct (order_loop_spec fuel 2 (q - 1) (q - 1)) as [A [B [C D]]];
    try (rewrite Hq1); try (change (to_Z 2) with 2); try lia; try assumption.
  - apply Z.divide_refl.
  - apply reduced_init. lia.
  - split; [exact A |]. split; [exact C |].
    apply (minimal_exponent_divides P); try assumption.
    + apply unit3_multiples.
    + intros N M HN HM. apply unit_power3_cancel; lia.
Qed.

End OrderLoop.

(** ** The table *)

Lemma table_loop_complete (ofuel fuel : nat) :
  forall q0 x,
    67 <= to_Z q0 -> Z.prime (to_Z x) -> to_Z x <= 65535 ->
    (exists j, 0 <= j < Z.of_nat fuel /\ to_Z x = to_Z q0 + 2 * j) ->
    In (x, Fast.order3 ofuel x) (Fast.table_loop ofuel fuel q0).
Proof.
  induction fuel as [| fuel IH]; intros q0 x Hq0 Hp Hx [j [Hj Ej]]; [lia |].
  cbn [Fast.table_loop]. rewrite int_leb_Z. change (to_Z 65535) with 65535.
  destruct (Z.leb_spec (to_Z q0) 65535) as [_ | Hgt]; [| lia].
  assert (Hq2 : to_Z (q0 + 2) = to_Z q0 + 2).
  { rewrite to_Z_add_small; change (to_Z 2) with 2; lia. }
  destruct (Z.eq_dec j 0) as [-> | Hj0].
  - assert (x = q0) by (apply to_Z_inj; lia). subst x.
    assert (Hu : Fast.unit3 q0 (q0 - 1) = true).
    { assert (Hq1 : to_Z (q0 - 1) = to_Z q0 - 1).
      { rewrite to_Z_sub_small; change (to_Z 1) with 1; lia. }
      apply unit3_spec; [lia | lia |]. rewrite Hq1.
      apply prime_unit_power3; [exact Hp | lia]. }
    rewrite Hu. left. reflexivity.
  - assert (Hin : In (x, Fast.order3 ofuel x) (Fast.table_loop ofuel fuel (q0 + 2))).
    { apply IH; try assumption; [lia |]. exists (j - 1). lia. }
    destruct (Fast.unit3 q0 (q0 - 1)); [right |]; exact Hin.
Qed.

(** Every prime from 67 to 65535 has an entry in the table, and the entry
    is usable as soon as its order is not the out-of-fuel value 0. *)
Lemma table_complete (p : Z) :
  Z.prime p -> 67 <= p <= 65535 ->
  exists q,
    to_Z q = p /\ In (q, Fast.order3 Fast.order_fuel q) Fast.table /\
    (to_Z (Fast.order3 Fast.order_fuel q) <> 0 ->
     good_entry p (to_Z (Fast.order3 Fast.order_fuel q))).
Proof.
  intros Hp Hr. exists (of_Z p).
  assert (Eq : to_Z (of_Z p) = p).
  { rewrite of_Z_spec, wB_value. apply Z.mod_small. lia. }
  split; [exact Eq |]. split.
  - apply table_loop_complete; rewrite ?Eq; try assumption;
      change (to_Z 67) with 67; try lia.
    exists ((p - 67) / 2).
    assert (Hf : Z.of_nat Fast.table_fuel = 32768) by reflexivity.
    rewrite Hf.
    pose proof (prime_odd p Hp ltac:(lia)) as Hodd.
    rewrite Zodd_mod in Hodd. apply Z.eqb_eq in Hodd.
    pose proof (Z.div_mod p 2 ltac:(lia)).
    pose proof (Z.div_mod (p - 67) 2 ltac:(lia)).
    pose proof (Z.mod_pos_bound (p - 67) 2 ltac:(lia)). lia.
  - intros Hnz. rewrite <- Eq at 1. apply order3_good; rewrite ?Eq; try lia.
    apply prime_unit_power3; [exact Hp | lia].
Qed.

(** * Soundness of the search *)

Lemma to_Z_of_Z_small (n : Z) : 0 <= n < 2 ^ 63 -> to_Z (of_Z n) = n.
Proof. intros H. rewrite of_Z_spec, wB_value. apply Z.mod_small. exact H. Qed.

Lemma fast_is_prime_false (x : int) :
  to_Z x < 2 ^ 32 -> negb (Fast.is_prime x) = true ->
  is_prime (to_Z x) = Ok false.
Proof.
  intros Hx Hneg. rewrite fast_is_prime_refines by exact Hx.
  apply negb_true_iff in Hneg. rewrite Hneg. reflexivity.
Qed.

(** [checkA]: no [q * m] with [m = q + j * L] and
    [2 ^ (q - 1) = 1 (mod m)] is accepted. *)
Lemma checkA_sound (d : nat) (q L : int) :
  Fast.checkA d (q, L) = true ->
  67 <= to_Z q <= 65535 -> to_Z L < 2 ^ 16 ->
  0 < to_Z L /\
  forall j m,
    0 <= j -> m = to_Z q + j * to_Z L -> to_Z q * m <= 2 ^ 32 - 1 ->
    2 ^ (to_Z q - 1) mod m = 1 ->
    is_prime (to_Z q * m) = Ok false.
Proof.
  unfold Fast.checkA. intros Hc Hq HL.
  pose proof (to_Z_bounded L) as BL.
  rewrite int_eqb_Z in Hc. change (to_Z 0) with 0 in Hc.
  destruct (Z.eqb_spec (to_Z L) 0) as [| HL0]; [discriminate |].
  split; [lia |]. intros j m Hj Em Hqm Hpow.
  assert (Hlast : to_Z (Fast.max32 / q) = (2 ^ 32 - 1) / to_Z q).
  { rewrite div_spec. reflexivity. }
  assert (Blast : 0 <= (2 ^ 32 - 1) / to_Z q < 2 ^ 32).
  { split; [apply Z.div_pos; lia | apply Z.div_lt_upper_bound; lia]. }
  assert (Bm : 67 <= m < 2 ^ 31) by nia.
  assert (Ex : to_Z (of_Z m) = m) by (apply to_Z_of_Z_small; lia).
  pose proof (run_progression_spec d _ q L (Fast.max32 / q)
                ltac:(lia) ltac:(rewrite Hlast; lia) Hc j (of_Z m) Hj) as HP.
  cbv beta in HP. rewrite Ex in HP.
  specialize (HP Em).
  assert (Hle : m <= to_Z (Fast.max32 / q)).
  { rewrite Hlast. apply Z.div_le_lower_bound; lia. }
  specialize (HP Hle).
  assert (Hq1 : to_Z (q - 1) = to_Z q - 1).
  { rewrite to_Z_sub_small; change (to_Z 1) with 1; lia. }
  rewrite int_eqb_Z, pow2_spec in HP;
    [| rewrite Ex; lia | rewrite Hq1; change (Z.of_nat 11) with 11; lia].
  rewrite Ex, Hq1, Hpow in HP. change (to_Z 1) with 1 in HP. cbn [Z.eqb] in HP.
  assert (Eqm : to_Z (q * of_Z m) = to_Z q * m).
  { rewrite to_Z_mul_small; rewrite Ex; [reflexivity | lia]. }
  rewrite <- Eqm. apply fast_is_prime_false; [rewrite Eqm; lia | exact HP].
Qed.

(** The inverse computed in [checkB]. *)
Lemma fermat_inverse (p L2 : Z) :
  Z.prime p -> L2 mod p <> 0 ->
  (1 + L2 * ((p - L2 mod p) ^ (p - 2) mod p)) mod p = 0.
Proof.
  intros Hp Hnz. pose proof (Z.prime_ge_2 p Hp) as Hp2.
  pose proof (Z.mod_pos_bound L2 p ltac:(lia)) as Bm.
  set (b := p - L2 mod p).
  assert (Hb : 0 < b < p) by (unfold b; lia).
  assert (Hf : b ^ (p - 1) mod p = 1).
  { apply ZmodInv.Z.fermat_nz; [exact Hp |]. rewrite Z.mod_small; lia. }
  assert (Hbt : (b * (b ^ (p - 2) mod p)) mod p = 1).
  { rewrite Z.mul_mod_idemp_r by lia.
    rewrite <- Z.pow_succ_r by lia.
    replace (Z.succ (p - 2)) with (p - 1) by lia. exact Hf. }
  set (t0 := b ^ (p - 2) mod p) in *.
  apply Z.mod_divide; [lia |].
  pose proof (Z.div_mod (b * t0) p ltac:(lia)) as E1. rewrite Hbt in E1.
  pose proof (Z.div_mod L2 p ltac:(lia)) as E2.
  exists ((L2 / p + 1) * t0 - b * t0 / p).
  unfold b in *. nia.
Qed.

(** [checkB]: no [n = q2 * (1 + L2 * t)] with [q] dividing [1 + L2 * t]
    and [L] dividing [n - 1] is accepted. *)
Lemma checkB_sound (d : nat) (q L q2 L2 : int) :
  Fast.checkB d (q, L) (q2, L2) = true ->
  Z.prime (to_Z q) -> 67 <= to_Z q <= to_Z q2 -> to_Z q2 <= 65535 ->
  0 < to_Z L < 2 ^ 16 -> 0 < to_Z L2 < 2 ^ 16 ->
  to_Z q * to_Z q2 * to_Z q2 <= 2 ^ 32 - 1 ->
  forall n t,
    n <= 2 ^ 32 - 1 -> 0 <= t -> n = to_Z q2 * (1 + to_Z L2 * t) ->
    (to_Z q | 1 + to_Z L2 * t) -> (to_Z L | n - 1) ->
    is_prime n = Ok false.
Proof.
  unfold Fast.checkB. intros Hc Hp Hq Hq2 HL HL2 Hcube n t Hn Ht En Hdiv HLn.
  set (p := to_Z q) in *. set (p2 := to_Z q2) in *.
  set (l := to_Z L) in *. set (l2 := to_Z L2) in *.
  assert (Bpp : 0 <= p * p2 < 2 ^ 16 * 2 ^ 16) by (apply mul_bound; lia).
  assert (Epp : to_Z (q * q2) = p * p2) by (apply to_Z_mul_small; fold p p2; lia).
  assert (Bppp : 0 <= p * p2 * p2 < 2 ^ 32 * 2 ^ 16) by (apply mul_bound; lia).
  assert (Eppp : to_Z (q * q2 * q2) = p * p2 * p2).
  { rewrite to_Z_mul_small; rewrite Epp; fold p2; [reflexivity | lia]. }
  assert (Bppl : 0 <= p * p2 * l2 < 2 ^ 32 * 2 ^ 16) by (apply mul_bound; lia).
  assert (Eppl : to_Z (q * q2 * L2) = p * p2 * l2).
  { rewrite to_Z_mul_small; rewrite Epp; fold l2; [reflexivity | lia]. }
  rewrite !int_ltb_Z, Eppp in Hc. fold p p2 in Hc.
  change (to_Z Fast.max32) with (2 ^ 32 - 1) in Hc.
  destruct (Z.ltb_spec p2 p) as [| _]; [lia |].
  destruct (Z.ltb_spec (2 ^ 32 - 1) (p * p2 * p2)) as [| _]; [lia |].
  rewrite int_eqb_Z, mod_spec in Hc. fold p l2 in Hc. change (to_Z 0) with 0 in Hc.
  destruct (Z.eqb_spec (l2 mod p) 0) as [Hm | Hm].
  { (* [q] divides [L2]: it cannot divide [1 + L2 * t] *)
    exfalso. apply Z.mod_divide in Hm; [| lia].
    assert (H1 : (p | 1)).
    { replace 1 with ((1 + l2 * t) - l2 * t) by ring.
      apply Z.divide_sub_r; [exact Hdiv |].
      apply Z.divide_mul_l. exact Hm. }
    apply Z.divide_1_r_nonneg in H1; lia. }
  pose proof (Z.mod_pos_bound l2 p ltac:(lia)) as Bm.
  assert (Eb : to_Z (q - L2 mod q) = p - l2 mod p).
  { rewrite to_Z_sub_small; rewrite mod_spec; fold p l2; lia. }
  assert (Eq2 : to_Z (q - 2) = p - 2).
  { rewrite to_Z_sub_small; change (to_Z 2) with 2; fold p; lia. }
  assert (Et0 : to_Z (Fast.powm (q - L2 mod q) (q - 2) q) =
                (p - l2 mod p) ^ (p - 2) mod p).
  { rewrite powm_spec; rewrite ?Eb, ?Eq2; fold p; lia || reflexivity. }
  set (t0i := Fast.powm (q - L2 mod q) (q - 2) q) in *.
  set (t0 := (p - l2 mod p) ^ (p - 2) mod p) in *.
  assert (Bt0 : 0 <= t0 < p) by (apply Z.mod_pos_bound; lia).
  assert (Blt : 0 <= l2 * t0 < 2 ^ 16 * 2 ^ 16) by (apply mul_bound; lia).
  assert (Elt : to_Z (1 + L2 * t0i) = 1 + l2 * t0).
  { rewrite to_Z_add_small; rewrite to_Z_mul_small; rewrite ?Et0;
      change (to_Z 1) with 1; fold l2; lia. }
  assert (Hinv : (1 + l2 * t0) mod p = 0) by (apply fermat_inverse; assumption).
  cbv zeta in Hc. rewrite int_eqb_Z, mod_spec, Elt in Hc. fold p in Hc.
  change (to_Z 0) with 0 in Hc. rewrite Hinv in Hc. cbn [Z.eqb] in Hc.
  (* [t] is [t0] plus a multiple of [q] *)
  apply Z.mod_divide in Hinv; [| lia].
  assert (Hdt : (p | t - t0)).
  { assert (Hd2 : (p | l2 * (t - t0))).
    { replace (l2 * (t - t0)) with ((1 + l2 * t) - (1 + l2 * t0)) by ring.
      apply Z.divide_sub_r; assumption. }
    apply (Z.divide_prime_mul _ _ p Hp) in Hd2. destruct Hd2 as [Hd2 | Hd2].
    - exfalso. apply Hm. apply Z.mod_divide; [lia | exact Hd2].
    - exact Hd2. }
  destruct Hdt as [s Hs].
  assert (Hs0 : 0 <= s) by nia.
  assert (Bn0 : 0 <= p2 * (1 + l2 * t0) < 2 ^ 16 * 2 ^ 33) by (apply mul_bound; lia).
  assert (Estart : to_Z (q2 * (1 + L2 * t0i)) = p2 * (1 + l2 * t0)).
  { rewrite to_Z_mul_small; rewrite Elt; fold p2; [reflexivity | lia]. }
  assert (Hnpos : 0 < n) by nia.
  assert (Ex : to_Z (of_Z n) = n) by (apply to_Z_of_Z_small; lia).
  pose proof (run_progression_spec d _ _ _ Fast.max32
                ltac:(rewrite Eppl; nia)
                ltac:(rewrite Eppl; change (to_Z Fast.max32) with (2 ^ 32 - 1); lia)
                Hc s (of_Z n) Hs0) as HP.
  cbv beta in HP. rewrite Ex, Estart, Eppl in HP.
  assert (En' : n = p2 * (1 + l2 * t0) + s * (p * p2 * l2)).
  { rewrite En. replace t with (t0 + s * p) by lia. ring. }
  specialize (HP En').
  change (to_Z Fast.max32) with (2 ^ 32 - 1) in HP. specialize (HP Hn).
  assert (En1 : to_Z (of_Z n - 1) = n - 1).
  { rewrite to_Z_sub_small; rewrite Ex; change (to_Z 1) with 1; lia. }
  rewrite int_eqb_Z, mod_spec, En1 in HP. fold l in HP. change (to_Z 0) with 0 in HP.
  apply Z.mod_divide in HLn; [| lia]. rewrite HLn in HP. cbn [Z.eqb] in HP.
  rewrite <- Ex. apply fast_is_prime_false; [rewrite Ex; lia | exact HP].
Qed.

Lemma checkA_nonzero (d : nat) (q L : int) :
  Fast.checkA d (q, L) = true -> to_Z L <> 0.
Proof.
  unfold Fast.checkA. rewrite int_eqb_Z. change (to_Z 0) with 0.
  destruct (Z.eqb_spec (to_Z L) 0); [discriminate | auto].
Qed.

(** If [L] divides [g - 1] and [g * h - 1], it divides [h - 1]. *)
Lemma divide_cofactor_pred (L g h : Z) :
  (L | g - 1) -> (L | g * h - 1) -> (L | h - 1).
Proof.
  intros [a Ha] [b Hb]. exists (b - a * h).
  replace (h - 1) with ((g * h - 1) - (g - 1) * h) by ring.
  rewrite Ha, Hb. ring.
Qed.

Section SearchSound.

Variable depth : nat.
Hypothesis Hcheck : Fast.check_table depth Fast.table = true.

(** The table entry of a prime, with everything the search says of it. *)
Lemma entry_of_prime (p : Z) :
  Z.prime p -> 67 <= p <= 65535 ->
  exists q,
    to_Z q = p /\ In (q, Fast.order3 Fast.order_fuel q) Fast.table /\
    good_entry p (to_Z (Fast.order3 Fast.order_fuel q)) /\ 0 < to_Z (Fast.order3 Fast.order_fuel q) < 2 ^ 16 /\
    Fast.checkA depth (q, Fast.order3 Fast.order_fuel q) = true /\
    Fast.checkB_row depth Fast.table (q, Fast.order3 Fast.order_fuel q) = true.
Proof.
  intros Hp Hr. destruct (table_complete p Hp Hr) as [q [Eq [Hin Hgood]]].
  unfold Fast.check_table in Hcheck. apply andb_true_iff in Hcheck.
  destruct Hcheck as [HA HB]. rewrite forallb_forall in HA, HB.
  pose proof (HA _ Hin) as HAq. pose proof (HB _ Hin) as HBq.
  pose proof (Hgood (checkA_nonzero _ _ _ HAq)) as Hg.
  exists q. split; [exact Eq |]. split; [exact Hin |]. split; [exact Hg |].
  split; [| split; assumption].
  destruct Hg as [H0 [Hd _]]. apply Z.divide_pos_le in Hd; lia.
Qed.

Theorem search_sound (n : Z) :
  in_u32 n -> 61 < n -> is_prime n = Ok true -> Z.prime n.
Proof.
  intros Hu Hn Hv.
  destruct (prime_decidable n) as [Hp | Hnp]; [exact Hp | exfalso].
  unfold in_u32 in Hu.
  destruct (is_prime_true_fermat n ltac:(unfold in_u32; lia) Hn Hv)
    as [Hsmall Hferm].
  destruct (composite_split n ltac:(lia) Hnp) as [q [m [Hq [En [Hqm Hleast]]]]].
  pose proof (Z.prime_ge_2 q Hq) as Hq2.
  assert (Hqn : (q | n)) by (exists m; lia).
  assert (Hmn : (m | n)) by (exists q; lia).
  assert (Hq67 : 67 <= q).
  { destruct (Z_le_gt_dec q 61) as [Hle | Hgt].
    - exfalso. apply (Hsmall q); [lia | exact Hqn].
    - assert (C : q = 62 \/ q = 63 \/ q = 64 \/ q = 65 \/ q = 66 \/ 67 <= q) by lia.
      destruct Hq as [_ Hno].
      destruct C as [-> | [-> | [-> | [-> | [-> | C]]]]]; try exact C; exfalso.
      + apply (Hno 2); [lia | exists 31; reflexivity].
      + apply (Hno 3); [lia | exists 21; reflexivity].
      + apply (Hno 2); [lia | exists 32; reflexivity].
      + apply (Hno 5); [lia | exists 13; reflexivity].
      + apply (Hno 2); [lia | exists 33; reflexivity]. }
  assert (Hq16 : q <= 65535) by nia.
  destruct (entry_of_prime q Hq ltac:(lia))
    as [xq [Exq [Hinq [[HL0 [HLq HLmin]] [BL [HA HB]]]]]].
  assert (HLn : (to_Z (Fast.order3 Fast.order_fuel xq) | n - 1)).
  { apply HLmin; [lia |]. apply (unit_power3_divisor n); [lia | exact Hqn | exact Hferm]. }
  destruct (prime_decidable m) as [Hm | Hmc].
  - (* the cofactor is prime *)
    destruct (checkA_sound depth xq (Fast.order3 Fast.order_fuel xq) HA ltac:(lia) ltac:(lia)) as [_ HAs].
    assert (HLm : (to_Z (Fast.order3 Fast.order_fuel xq) | m - q)).
    { replace (m - q) with ((m - 1) - (q - 1)) by ring.
      apply Z.divide_sub_r; [| exact HLq].
      apply (divide_cofactor_pred _ q m); [exact HLq | rewrite <- En; exact HLn]. }
    destruct HLm as [j Hj].
    assert (Hj0 : 0 <= j) by nia.
    assert (Hpow : 2 ^ (q - 1) mod m = 1).
    { destruct Hferm as [H2 _].
      pose proof (unit_power_divisor 2 n m (n - 1) ltac:(lia) Hmn H2) as H2m.
      assert (Hfm : unit_power 2 m (m - 1)).
      { apply ZmodInv.Z.fermat_nz; [exact Hm |]. rewrite Z.mod_small; lia. }
      apply (unit_power_cancel 2 m (q - 1) ((m - 1) * q)); try lia.
      - nia.
      - replace (q - 1 + (m - 1) * q) with (n - 1) by (rewrite En; ring).
        exact H2m.
      - apply unit_power_mul; try lia. exact Hfm. }
    rewrite <- Exq in Hpow.
    specialize (HAs j m Hj0 ltac:(rewrite Exq; lia) ltac:(rewrite Exq; lia) Hpow).
    rewrite Exq, <- En, Hv in HAs. discriminate.
  - (* the cofactor is composite: a second prime factor *)
    destruct (composite_split m ltac:(lia) Hmc) as [q2 [c [Hq2p [Em [Hq2c _]]]]].
    pose proof (Z.prime_ge_2 q2 Hq2p) as Hq22.
    assert (Hq2m : (q2 | m)) by (exists c; lia).
    assert (Hq2n : (q2 | n)) by (apply (Z.divide_trans _ m); assumption).
    assert (Hqq2 : q <= q2) by (apply Hleast; [lia | exact Hq2m]).
    assert (Hcube : q * q2 * q2 <= 2 ^ 32 - 1) by nia.
    assert (Hq216 : q2 <= 65535) by nia.
    destruct (entry_of_prime q2 Hq2p ltac:(lia))
      as [xq2 [Exq2 [Hinq2 [[HL20 [HL2q HL2min]] [BL2 _]]]]].
    assert (HL2n : (to_Z (Fast.order3 Fast.order_fuel xq2) | n - 1)).
    { apply HL2min; [lia |].
      apply (unit_power3_divisor n); [lia | exact Hq2n | exact Hferm]. }
    (* the row of [q] covers the entry of [q2] *)
    unfold Fast.checkB_row in HB. cbn [fst] in HB.
    assert (Bqq : 0 <= q * q < 2 ^ 16 * 2 ^ 16) by (apply mul_bound; lia).
    assert (Eqq : to_Z (xq * xq) = q * q).
    { rewrite to_Z_mul_small; rewrite Exq; [reflexivity | lia]. }
    assert (Bqqq : 0 <= q * q * q < 2 ^ 32 * 2 ^ 16) by (apply mul_bound; lia).
    assert (Eqqq : to_Z (xq * xq * xq) = q * q * q).
    { rewrite to_Z_mul_small; rewrite Eqq, Exq; [reflexivity | lia]. }
    rewrite int_ltb_Z, Eqqq in HB.
    change (to_Z Fast.max32) with (2 ^ 32 - 1) in HB.
    assert (Hqqq : q * q * q <= q * q2 * q2).
    { apply Z.mul_le_mono_nonneg; try lia.
      apply Z.mul_le_mono_nonneg; lia. }
    destruct (Z.ltb_spec (2 ^ 32 - 1) (q * q * q)) as [Hbig | _]; [lia |].
    rewrite forallb_forall in HB. specialize (HB _ Hinq2).
    (* [n / q2 = q * c] is 1 modulo the order of [q2] *)
    assert (En2 : n = q2 * (q * c)) by (rewrite En, Em; ring).
    assert (HL2c : (to_Z (Fast.order3 Fast.order_fuel xq2) | q * c - 1)).
    { apply (divide_cofactor_pred _ q2 (q * c));
        [exact HL2q | rewrite <- En2; exact HL2n]. }
    destruct HL2c as [t Ht].
    assert (Ht0 : 0 <= t) by nia.
    assert (Hfalse : is_prime n = Ok false).
    { apply (checkB_sound depth xq (Fast.order3 Fast.order_fuel xq)
               xq2 (Fast.order3 Fast.order_fuel xq2) HB) with (t := t);
        rewrite ?Exq, ?Exq2; try assumption; try lia.
      - rewrite En2. f_equal. lia.
      - exists c. lia. }
    rewrite Hv in Hfalse. discriminate.
Qed.

End SearchSound.

(** * The verdict of is_prime *)

(** The search succeeds (by evaluation). *)
Lemma search_result : Fast.check_table Fast.search_depth Fast.table = true.
Proof. vm_compute. reflexivity. Qed.

(** No false positive: what [is_prime] reports prime is prime. *)
Lemma is_prime_sound (n : Z) :
  in_u32 n -> is_prime n = Ok true -> Z.prime n.
Proof.
  intros Hu Hv. destruct (Z.le_gt_cases n 61) as [Hle | Hgt].
  - unfold in_u32 in Hu. rewrite is_prime_small in Hv by lia.
    injection Hv as Hv. apply small_primeb_spec; [lia | exact Hv].
  - apply (search_sound Fast.search_depth search_result); assumption.
Qed.

Lemma prime_verdict_spec (x : Z) :
  in_u32 x -> (prime_verdict x = true <-> Z.prime x).
Proof.
  intros Hu. unfold prime_verdict, outcome_is.
  destruct (is_prime_total x Hu) as [b Hb]. rewrite Hb. split.
  - intros E. apply Bool.eqb_prop in E. subst b.
    apply is_prime_sound; assumption.
  - intros Hp. rewrite (is_prime_complete x Hu Hp) in Hb.
    injection Hb as <-. reflexivity.
Qed.

(** * The range driver *)

Lemma zrange_succ (lo : Z) (len : nat) :
  zrange lo (S len) = lo :: zrange (lo + 1) len.
Proof.
  unfold zrange. cbn [seq map]. rewrite Z.add_0_r. f_equal.
  rewrite <- seq_shift, map_map. apply map_ext.
  intros k. lia.
Qed.

Lemma zrange_in (len : nat) :
  forall lo x, In x (zrange lo len) <-> lo <= x < lo + Z.of_nat len.
Proof.
  induction len as [| len IH]; intros lo x.
  - cbn. lia.
  - rewrite zrange_succ. cbn [In]. rewrite IH. lia.
Qed.

Lemma zrange_nodup (len : nat) : forall lo, NoDup (zrange lo len).
Proof.
  induction len as [| len IH]; intros lo.
  - constructor.
  - rewrite zrange_succ. constructor; [| apply IH].
    rewrite zrange_in. lia.
Qed.

Lemma primes_from_succ (lo : Z) (len : nat) :
  primes_from lo (S len) =
  (if prime_verdict lo then [lo] else []) ++ primes_from (lo + 1) len.
Proof.
  unfold primes_from. rewrite zrange_succ. cbn [filter].
  destruct (prime_verdict lo); reflexivity.
Qed.

(** The loop adds one for every number of [i, hi) reported prime, and the
    32-bit counter does not wrap. *)
Lemma count_loop_spec (hi : Z) (fuel : nat) :
  in_u32 hi ->
  forall i count,
    0 <= i -> 0 <= count <= Z.max 1 i ->
    Z.max 0 (hi - i) < Z.of_nat fuel ->
    count_loop fuel i hi count =
    Ok (count + Z.of_nat (length (primes_from i (Z.to_nat (hi - i))))).
Proof.
  intros Hhi. unfold in_u32 in Hhi.
  induction fuel as [| fuel IH]; intros i count Hi Hc Hf; [lia |].
  cbn [count_loop]. destruct (Z.ltb_spec i hi) as [Hlt | Hge].
  - assert (Hiu : in_u32 i) by (unfold in_u32; lia).
    destruct (is_prime_total i Hiu) as [b Hb]. rewrite Hb. cbn [bind].
    assert (Hv : prime_verdict i = b).
    { unfold prime_verdict, outcome_is. rewrite Hb. destruct b; reflexivity. }
    assert (Hb0 : i = 0 -> b = false).
    { intros ->. rewrite is_prime_small in Hb by lia. injection Hb as <-. reflexivity. }
    assert (Hcb : 0 <= count + Z.b2z b <= Z.max 1 (i + 1)).
    { destruct b; cbn [Z.b2z]; [| lia].
      destruct (Z.eq_dec i 0) as [E | E]; [specialize (Hb0 E); discriminate | lia]. }
    rewrite !u32_small by (unfold in_u32; lia).
    rewrite IH by lia.
    replace (Z.to_nat (hi - i)) with (S (Z.to_nat (hi - (i + 1)))) by lia.
    rewrite primes_from_succ, Hv, length_app, Nat2Z.inj_add.
    f_equal. destruct b; cbn [length Z.b2z]; lia.
  - replace (Z.to_nat (hi - i)) with O by lia. cbn. f_equal. lia.
Qed.

(** * Lemmas on the guards, the range driver and the cost of powmod *)

(** The test past its first two guards, for an odd candidate above 2. *)
Lemma sprp_past_parity (a n : Z) :
  2 < n -> Z.odd n = true ->
  is_strong_probable_prime a n =
  (r <- umod n a ;;
   if r =? 0 then Ok (n =? a)
   else
     e <- builtin_ctzl (u32 (n - 1)) ;;
     power <- powmod a (Z.shiftr (u32 (n - 1)) e) n ;;
     if power =? 1 then Ok true else sprp_loop (Z.to_nat e) power n).
Proof.
  intros Hn Hodd. unfold is_strong_probable_prime.
  destruct (Z.leb_spec n 2); [lia |].
  rewrite land_1_even, <- Z.negb_odd, Hodd. reflexivity.
Qed.

Lemma sprp_even (a n : Z) :
  2 < n -> Z.odd n = false -> is_strong_probable_prime a n = Ok false.
Proof.
  intros Hn Hodd. unfold is_strong_probable_prime.
  destruct (Z.leb_spec n 2); [lia |].
  rewrite land_1_even, <- Z.negb_odd, Hodd. reflexivity.
Qed.

(** A base that divides the candidate: the verdict is [n == base]. *)
Lemma sprp_divisor (a n : Z) :
  0 < a -> 2 < n -> Z.odd n = true -> (a | n) ->
  is_strong_probable_prime a n = Ok (n =? a).
Proof.
  intros Ha Hn Hodd Hdiv. rewrite sprp_past_parity by assumption.
  unfold umod. destruct (Z.eqb_spec a 0); [lia |]. cbn [bind].
  apply Z.mod_divide in Hdiv; [| lia]. rewrite Hdiv. reflexivity.
Qed.

(** A divisor of an odd number is odd. *)
Lemma odd_divisor (n j : Z) : Z.odd n = true -> (j | n) -> Z.odd j = true.
Proof.
  intros Hodd [q Hq]. rewrite Hq, Z.odd_mul in Hodd.
  apply andb_true_iff in Hodd. apply Hodd.
Qed.

(** Powers of 1 and of -1 modulo [n]. *)
Lemma pow_of_one (x d n : Z) :
  1 < n -> 0 <= d -> x mod n = 1 -> x ^ d mod n = 1.
Proof.
  intros Hn Hd Hx.
  rewrite <- Z.mod_pow_l, Hx, Z.pow_1_l by lia. apply Z.mod_small. lia.
Qed.

Lemma pow_of_minus_one (x d n : Z) :
  2 < n -> 0 <= d -> Z.odd d = true -> x mod n = n - 1 ->
  x ^ d mod n = n - 1.
Proof.
  intros Hn Hd Hodd Hx. apply Z.odd_spec in Hodd. destruct Hodd as [k Hk].
  assert (Hsq : (x * x) mod n = 1).
  { rewrite Z.mul_mod, Hx by lia.
    replace ((n - 1) * (n - 1)) with (1 + (n - 2) * n) by ring.
    rewrite Z.mod_add by lia. apply Z.mod_small. lia. }
  rewrite Hk, Z.pow_add_r, Z.pow_1_r, Z.pow_mul_r by lia.
  rewrite Z.mul_mod, <- Z.mod_pow_l, Z.pow_2_r, Hsq, Z.pow_1_l by lia.
  rewrite Hx, (Z.mod_small 1), Z.mul_1_l by lia. apply Z.mod_small. lia.
Qed.

(** Up to 61 the trial-division loop decides (by evaluation). *)
Lemma trial_loop_small (n : Z) :
  2 < n <= 61 -> Z.odd n = true ->
  trial_loop trial_fuel 3 n = Ok (Some (small_primeb n)).
Proof.
  intros Hn Hodd.
  assert (Hall : forallb
            (fun k => let x := Z.of_nat k in
               negb (Z.odd x) || (x <=? 2) ||
               match trial_loop trial_fuel 3 x with
               | Ok (Some b) => Bool.eqb b (small_primeb x)
               | _ => false
               end)
            (seq 0 62) = true) by (vm_compute; reflexivity).
  rewrite forallb_forall in Hall.
  specialize (Hall (Z.to_nat n)). cbv zeta in Hall.
  rewrite Z2Nat.id in Hall by lia.
  assert (Hin : In (Z.to_nat n) (seq 0 62)) by (apply in_seq; lia).
  specialize (Hall Hin). rewrite Hodd in Hall. cbn [negb orb] in Hall.
  destruct (Z.leb_spec n 2); [lia |]. cbn [orb] in Hall.
  destruct (trial_loop trial_fuel 3 n) as [[b |] | f]; try discriminate.
  apply Bool.eqb_prop in Hall. rewrite Hall. reflexivity.
Qed.

(** The trace of [powmod]'s loop: two multiplications at most for every
    bit of the exponent. *)
Lemma powmod_loop_mults_length (k : nat) :
  forall fuel power result e m,
    0 <= e < 2 ^ Z.of_nat k ->
    (length (powmod_loop_mults fuel power result e m) <= 2 * k)%nat.
Proof.
  induction k as [| k IH]; intros fuel power result e m He.
  - assert (e = 0) by (cbn in He; lia). subst e.
    destruct fuel; cbn; lia.
  - destruct fuel as [| fuel]; [cbn; lia |].
    cbn [powmod_loop_mults].
    destruct (Z.eqb_spec e 0) as [| Hne]; [cbn; lia |].
    assert (Hhalf : 0 <= Z.shiftr e 1 < 2 ^ Z.of_nat k).
    { rewrite shiftr_1_half. rewrite Nat2Z.inj_succ, Z.pow_succ_r in He by lia.
      split; [apply Z.div_pos; lia | apply Z.div_lt_upper_bound; lia]. }
    cbv zeta.
    destruct (negb (Z.land e 1 =? 0)).
    + destruct (mulmod result power m) as [r' | f]; [| cbn; lia].
      destruct (mulmod power power m) as [p' | f]; [| cbn; lia].
      specialize (IH fuel p' r' (Z.shiftr e 1) m Hhalf).
      cbn [length app]. lia.
    + destruct (mulmod power power m) as [p' | f]; [| cbn; lia].
      specialize (IH fuel p' result (Z.shiftr e 1) m Hhalf).
      cbn [length app]. lia.
Qed.

(** The squaring loop multiplies once per iteration at most. *)
Lemma sprp_loop_mults_length (k : nat) :
  forall power n, (length (sprp_loop_mults k power n) <= k)%nat.
Proof.
  induction k as [| k IH]; intros power n; [cbn; lia |].
  cbn [sprp_loop_mults].
  destruct (power =? u32 (n - 1)); [cbn; lia |].
  destruct (mulmod power power n) as [p' | f]; cbn [length]; [| lia].
  specialize (IH p' n). lia.
Qed.

(** ** The range driver *)

Lemma primes_from_app (a b : nat) :
  forall lo,
    primes_from lo (a + b) = primes_from lo a ++ primes_from (lo + Z.of_nat a) b.
Proof.
  induction a as [| a IH]; intros lo.
  - cbn [Nat.add Z.of_nat]. rewrite Z.add_0_r. reflexivity.
  - cbn [Nat.add]. rewrite !primes_from_succ, IH, <- app_assoc.
    do 3 f_equal. lia.
Qed.

(** The numbers of a range reported prime are its primes. *)
Lemma primes_from_counts (lo : Z) (len : nat) :
  0 <= lo -> lo + Z.of_nat len <= 2 ^ 32 ->
  counts_primes lo (lo + Z.of_nat len - 1)
    (Z.of_nat (length (primes_from lo len))).
Proof.
  intros Hlo Hhi. exists (primes_from lo len).
  split; [apply NoDup_filter, zrange_nodup |]. split; [| reflexivity].
  intros x. unfold primes_from. rewrite filter_In, zrange_in. split.
  - intros [Hr Hv]. split; [lia |].
    apply prime_verdict_spec; [unfold in_u32; lia | exact Hv].
  - intros [Hr Hp]. split; [lia |].
    apply prime_verdict_spec; [unfold in_u32; lia | exact Hp].
Qed.

(** What the driver returns on a non-empty range. *)
Lemma count_primes_value (fuel : nat) (lo hi : Z) :
  in_u32 lo -> in_u32 hi -> lo <= hi -> hi - lo < Z.of_nat fuel ->
  count_primes fuel lo hi =
  Ok (Z.b2z (prime_verdict hi) +
      Z.of_nat (length (primes_from lo (Z.to_nat (hi - lo))))).
Proof.
  intros Hlo Hhi Hle Hf. unfold in_u32 in Hlo. unfold count_primes.
  destruct (Z.leb_spec lo hi); [| lia].
  destruct (is_prime_total hi Hhi) as [b Hb]. rewrite Hb. cbn [bind].
  assert (Hv : prime_verdict hi = b).
  { unfold prime_verdict, outcome_is. rewrite Hb. destruct b; reflexivity. }
  rewrite Hv. apply count_loop_spec; try assumption; try lia.
  destruct b; cbn [Z.b2z]; lia.
Qed.

(** The driver on a range whose two ends are reported composite. *)
Lemma count_primes_open (fuel : nat) (lo hi : Z) :
  in_u32 lo -> in_u32 hi -> lo < hi -> hi - lo < Z.of_nat fuel ->
  prime_verdict lo = false -> prime_verdict hi = false ->
  exists c,
    count_primes fuel lo hi = Ok c /\
    counts_primes lo (hi - 1) c /\ 0 <= c < hi - lo.
Proof.
  intros Hlo Hhi Hlt Hf Hvlo Hvhi. unfold in_u32 in Hlo, Hhi.
  rewrite count_primes_value, Hvhi by (try (unfold in_u32); lia).
  cbn [Z.b2z]. rewrite Z.add_0_l.
  eexists. split; [reflexivity |]. split.
  - pose proof (primes_from_counts lo (Z.to_nat (hi - lo))) as Hc.
    rewrite Z2Nat.id in Hc by lia.
    replace (lo + (hi - lo) - 1) with (hi - 1) in Hc by lia.
    apply Hc; lia.
  - replace (Z.to_nat (hi - lo)) with (S (Z.to_nat (hi - lo - 1))) by lia.
    rewrite primes_from_succ, Hvlo. cbn [app].
    assert (Hlen : (length (primes_from (lo + 1) (Z.to_nat (hi - lo - 1))) <=
                    length (zrange (lo + 1) (Z.to_nat (hi - lo - 1))))%nat)
      by apply filter_length_le.
    unfold zrange in Hlen. rewrite length_map, length_seq in Hlen. lia.
Qed.

(** * The properties of the specification *)

(** C3 (as stated) fails: with modulus 1 and exponent 0 the loop body never
    runs, so [powmod] returns its initial [result = 1], whereas
    [base ^ 0 mod 1 = 0]. *)
Lemma powmod_modulus_one_counterexample :
  in_u32 0 /\ in_u32 1 /\ 0 < 1 /\
  powmod 0 0 1 = Ok 1 /\ powmod 0 0 1 <> Ok (0 ^ 0 mod 1).
Proof.
  unfold in_u32. repeat split; try lia. discriminate.
Qed.

(** C3 (amended): for all unsigned 32-bit [base], [exponent] and [modulus]
    with [modulus > 0], [powmod] returns [base ^ exponent mod modulus],
    except that for [modulus = 1] and [exponent = 0] it returns 1. *)
Theorem powmod_correct (base exponent modulus : Z) :
  in_u32 base -> in_u32 exponent -> in_u32 modulus -> 0 < modulus ->
  powmod base exponent modulus =
  Ok (if (modulus =? 1) && (exponent =? 0) then 1
      else base ^ exponent mod modulus).
Proof.
  intros Hb He Hm H0. unfold in_u32 in Hm.
  rewrite powmod_value by (assumption || lia).
  destruct (Z.eqb_spec exponent 0) as [E | E].
  - subst exponent. rewrite Z.pow_0_r.
    destruct (Z.eqb_spec modulus 1) as [E1 | E1]; cbn [andb]; [reflexivity |].
    rewrite Z.mod_small by lia. reflexivity.
  - rewrite andb_false_r. reflexivity.
Qed.

Lemma powmod_correct_witness :
  powmod 3 5 7 = Ok (if (7 =? 1) && (5 =? 0) then 1 else 3 ^ 5 mod 7).
Proof. apply powmod_correct; unfold in_u32; lia. Defined.

(** C9: for every unsigned 32-bit [a] and every modulus [m > 1],
    [powmod a 0 m = 1] and [powmod a 1 m = a mod m]. *)
Theorem powmod_exponent_0_1 (a m : Z) :
  in_u32 a -> in_u32 m -> 1 < m ->
  powmod a 0 m = Ok 1 /\ powmod a 1 m = Ok (a mod m).
Proof.
  intros Ha Hm H1. unfold in_u32 in Hm. split.
  - rewrite powmod_value by (assumption || unfold in_u32; lia). reflexivity.
  - rewrite powmod_value by (assumption || unfold in_u32; lia).
    cbn [Z.eqb]. rewrite Z.pow_1_r. reflexivity.
Qed.

Lemma powmod_exponent_0_1_witness :
  powmod 10 0 7 = Ok 1 /\ powmod 10 1 7 = Ok (10 mod 7).
Proof. apply powmod_exponent_0_1; unfold in_u32; lia. Defined.

(** C10: for every unsigned 32-bit base and exponent and every modulus
    [m > 1], the value returned by [powmod] is strictly less than [m]; the
    result and the running power lie in [0, m) at every evaluation of the
    loop condition. *)
Theorem powmod_below_modulus (base exponent m : Z) :
  in_u32 base -> in_u32 exponent -> in_u32 m -> 1 < m ->
  (exists r, powmod base exponent m = Ok r /\ 0 <= r < m) /\
  Forall (fun s : Z * Z => 0 <= fst s < m /\ 0 <= snd s < m)
         (powmod_states base exponent m).
Proof.
  intros Hb He Hm H1. unfold in_u32 in Hm. split.
  - rewrite powmod_value_gt1 by (assumption || lia).
    exists (base ^ exponent mod m). split; [reflexivity |].
    apply Z.mod_pos_bound. lia.
  - unfold powmod_states, umod. destruct (Z.eqb_spec m 0); [lia |].
    apply powmod_loop_states_below; [lia | apply Z.mod_pos_bound; lia | lia].
Qed.

Lemma powmod_below_modulus_witness :
  (exists r, powmod 5 117 19 = Ok r /\ 0 <= r < 19) /\
  Forall (fun s : Z * Z => 0 <= fst s < 19 /\ 0 <= snd s < 19)
         (powmod_states 5 117 19).
Proof. apply powmod_below_modulus; unfold in_u32; lia. Defined.

(** C2: for every prime witness base [a] and every odd candidate [n > 2]
    not divisible by [a], [is_strong_probable_prime a n] returns true if
    and only if [n] satisfies the strong-pseudoprime criterion for base
    [a]: with [n - 1 = d * 2^e] and [d] odd, either [a^d = 1 (mod n)] or
    [a^(d * 2^i) = n - 1 (mod n)] for some [0 <= i < e]. *)
Theorem sprp_iff_strong_criterion (a n d e : Z) :
  in_u32 a -> in_u32 n -> Z.prime a ->
  2 < n -> Z.odd n = true -> ~ (a | n) ->
  0 <= e -> Z.odd d = true -> n - 1 = d * 2 ^ e ->
  exists b,
    is_strong_probable_prime a n = Ok b /\
    (b = true <->
     (a ^ d mod n = 1 \/
      exists i, 0 <= i < e /\ a ^ (d * 2 ^ i) mod n = n - 1)).
Proof.
  intros Ha Hn Hpa H2 Hodd Hnd He Hd Hde.
  pose proof (Z.prime_ge_2 a Hpa) as Ha2.
  apply (sprp_decides a n Ha Hn); try assumption; try lia.
  intros Hmod. apply Hnd. apply Z.mod_divide; [lia | exact Hmod].
Qed.

Lemma sprp_iff_strong_criterion_witness :
  exists b,
    is_strong_probable_prime 2 2047 = Ok b /\
    (b = true <->
     (2 ^ 1023 mod 2047 = 1 \/
      exists i, 0 <= i < 1 /\ 2 ^ (1023 * 2 ^ i) mod 2047 = 2047 - 1)).
Proof.
  apply (sprp_iff_strong_criterion 2 2047 1023 1);
    try (unfold in_u32; lia); try reflexivity.
  - exact Z.prime_2.
  - intros [k Hk]. lia.
Defined.

(** C5: for every prime witness base [a] and every odd candidate [n > 2],
    if [a] divides [n] then [is_strong_probable_prime a n] returns true if
    and only if [n = a]. *)
Theorem sprp_multiple_of_base (a n : Z) :
  in_u32 a -> in_u32 n -> Z.prime a ->
  2 < n -> Z.odd n = true -> (a | n) ->
  is_strong_probable_prime a n = Ok (n =? a) /\
  (is_strong_probable_prime a n = Ok true <-> n = a).
Proof.
  intros Ha Hn Hpa H2 Hodd Hdiv.
  pose proof (Z.prime_ge_2 a Hpa) as Ha2.
  assert (E : is_strong_probable_prime a n = Ok (n =? a)).
  { unfold is_strong_probable_prime.
    destruct (Z.leb_spec n 2); [lia |].
    rewrite land_1_even, <- Z.negb_odd, Hodd. cbn [negb].
    unfold umod. destruct (Z.eqb_spec a 0); [lia |]. cbn [bind].
    apply Z.mod_divide in Hdiv; [| lia]. rewrite Hdiv. reflexivity. }
  split; [exact E |]. rewrite E. split.
  - intros H. injection H as H. apply Z.eqb_eq. exact H.
  - intros ->. rewrite Z.eqb_refl. reflexivity.
Qed.

Lemma sprp_multiple_of_base_witness :
  is_strong_probable_prime 7 21 = Ok (21 =? 7) /\
  (is_strong_probable_prime 7 21 = Ok true <-> 21 = 7).
Proof.
  apply sprp_multiple_of_base; try (unfold in_u32; lia); try reflexivity.
  - split; [lia |]. intros k Hk [c Hc].
    assert (C : k = 2 \/ k = 3 \/ k = 4 \/ k = 5 \/ k = 6) by lia.
    destruct C as [-> | [-> | [-> | [-> | ->]]]]; lia.
  - exists 3. reflexivity.
Defined.

(** C6: for every odd [n > 2], with [e] the count of trailing zero bits of
    [n - 1] and [d = (n - 1) >> e], it holds that [n - 1 = d * 2^e], [d] is
    odd and [e >= 1]. *)
Theorem decomposition_invariant (n : Z) :
  in_u32 n -> 2 < n -> Z.odd n = true ->
  exists e,
    builtin_ctzl (u32 (n - 1)) = Ok e /\
    let d := Z.shiftr (u32 (n - 1)) e in
    n - 1 = d * 2 ^ e /\ Z.odd d = true /\ 1 <= e.
Proof.
  intros Hn H2 Hodd.
  destruct (decomposition n Hn H2 Hodd) as [e [Hctz [Hdec [Hod [He _]]]]].
  exists e. cbv zeta. repeat split; try assumption. lia.
Qed.

Lemma decomposition_invariant_witness :
  exists e,
    builtin_ctzl (u32 (97 - 1)) = Ok e /\
    let d := Z.shiftr (u32 (97 - 1)) e in
    97 - 1 = d * 2 ^ e /\ Z.odd d = true /\ 1 <= e.
Proof.
  apply decomposition_invariant; [unfold in_u32; lia | lia | reflexivity].
Defined.

(** C7 (as stated) fails for a modulus of 1: [powmod 0 1 1] multiplies
    [result = 1] by [power = 0] modulo 1, and the operand 1 is not less than
    the modulus. *)
Lemma mult_operand_counterexample :
  in_u32 0 /\ in_u32 1 /\ 0 < 1 /\
  powmod_mults 0 1 1 = [(1, 0, 1); (0, 0, 1)] /\
  ~ Forall mult_ok (powmod_mults 0 1 1).
Proof.
  unfold in_u32. repeat split; try lia.
  intros H. apply Forall_inv in H. unfold mult_ok in H. lia.
Qed.

(** C7 (amended): every modular multiplication in [powmod] (modulus > 0)
    multiplies two 32-bit values in 64-bit precision, the product never
    exceeds 2^64 - 1 and the result is that of exact modular arithmetic;
    when the modulus exceeds 1, and in the squaring loop of
    [is_strong_probable_prime], both operands are moreover less than the
    modulus. *)
Theorem multiplications_exact (base exponent m a n : Z) :
  in_u32 base -> in_u32 exponent -> in_u32 m -> 0 < m ->
  in_u32 a -> in_u32 n ->
  Forall mult_fits (powmod_mults base exponent m) /\
  (1 < m -> Forall mult_ok (powmod_mults base exponent m)) /\
  Forall mult_ok (squaring_mults a n).
Proof.
  intros Hb He Hm H0 Ha Hn. unfold in_u32 in Hm.
  assert (H : Forall mult_fits (powmod_mults base exponent m) /\
              (1 < m -> Forall mult_ok (powmod_mults base exponent m))).
  { unfold powmod_mults, umod. destruct (Z.eqb_spec m 0); [lia |].
    apply powmod_loop_mults_ok;
      [lia | apply Z.mod_pos_bound; lia | unfold in_u32; lia]. }
  destruct H as [H1 H2]. repeat split; try assumption.
  apply squaring_mults_ok; assumption.
Qed.

Lemma multiplications_exact_witness :
  Forall mult_fits (powmod_mults 4294967290 4294967295 4294967291) /\
  (1 < 4294967291 ->
   Forall mult_ok (powmod_mults 4294967290 4294967295 4294967291)) /\
  Forall mult_ok (squaring_mults 2 4294967291).
Proof. apply multiplications_exact; unfold in_u32; lia. Defined.

(** C8: whenever [is_strong_probable_prime] reaches the trailing-zero
    count, that is for every [n] that passed the guards [n <= 2] and
    [n even], its argument [n - 1] is non-zero; so for every input pair
    the undefined zero case of the primitive is never the outcome. *)
Theorem ctz_argument_nonzero (a n : Z) :
  in_u32 a -> in_u32 n ->
  ((n <=? 2) = false -> (Z.land n 1 =? 0) = false ->
   u32 (n - 1) <> 0 /\ exists e, builtin_ctzl (u32 (n - 1)) = Ok e) /\
  is_strong_probable_prime a n <> Fault CtzOfZero.
Proof.
  intros Ha Hn. split.
  - intros Hgt Hev. apply Z.leb_gt in Hgt.
    rewrite land_1_even, <- Z.negb_odd in Hev.
    apply negb_false_iff in Hev.
    destruct (decomposition n Hn Hgt Hev) as [e [Hctz _]].
    split; [| exists e; exact Hctz].
    rewrite u32_small by (unfold in_u32 in *; lia). lia.
  - destruct (Z.eq_dec a 0) as [-> | Hne].
    + unfold is_strong_probable_prime.
      destruct (n <=? 2); [discriminate |].
      destruct (Z.land n 1 =? 0); discriminate.
    + destruct (sprp_total a n Ha Hn) as [b Hb];
        [unfold in_u32 in Ha; lia |].
      rewrite Hb. discriminate.
Qed.

Lemma ctz_argument_nonzero_witness :
  ((3 <=? 2) = false -> (Z.land 3 1 =? 0) = false ->
   u32 (3 - 1) <> 0 /\ exists e, builtin_ctzl (u32 (3 - 1)) = Ok e) /\
  is_strong_probable_prime 0 3 <> Fault CtzOfZero.
Proof. apply ctz_argument_nonzero; unfold in_u32; lia. Defined.

(** C1: for every unsigned 32-bit integer [n], [is_prime n] returns true
    if and only if [n] is a prime number: there is no false positive and
    no false negative anywhere in the 32-bit unsigned range. *)
Theorem is_prime_correct (n : Z) :
  in_u32 n ->
  exists b, is_prime n = Ok b /\ (b = true <-> Z.prime n).
Proof.
  intros Hu. destruct (is_prime_total n Hu) as [b Hb].
  exists b. split; [exact Hb |]. split.
  - intros ->. apply is_prime_sound; assumption.
  - intros Hp. rewrite (is_prime_complete n Hu Hp) in Hb.
    injection Hb as <-. reflexivity.
Qed.

Lemma is_prime_correct_witness :
  exists b, is_prime 4294967291 = Ok b /\ (b = true <-> Z.prime 4294967291).
Proof. apply is_prime_correct. unfold in_u32. lia. Defined.

(** C4: for all [lo] and [hi] the range driver, given enough fuel for its
    [hi - lo] iterations, returns exactly the number of primes in the
    closed range [lo, hi]: one for [hi] when [lo <= hi] and [hi] is prime,
    plus one for every prime of the half-open range [lo, hi), nothing
    counted twice or omitted; and for [lo > hi] it returns 0. *)
Theorem count_primes_correct (fuel : nat) (lo hi : Z) :
  in_u32 lo -> in_u32 hi -> Z.max 0 (hi - lo) < Z.of_nat fuel ->
  exists c,
    count_primes fuel lo hi = Ok c /\
    counts_primes lo hi c /\
    (lo <= hi ->
     exists c_hi c_below,
       c = c_hi + c_below /\ counts_primes hi hi c_hi /\
       counts_primes lo (hi - 1) c_below) /\
    (hi < lo -> c = 0).
Proof.
  intros Hlo Hhi Hf. unfold in_u32 in Hlo, Hhi.
  set (below := primes_from lo (Z.to_nat (hi - lo))).
  assert (Hbelow : NoDup below /\
                   forall x, In x below <-> lo <= x <= hi - 1 /\ Z.prime x).
  { unfold below, primes_from. split.
    - apply NoDup_filter, zrange_nodup.
    - intros x. rewrite filter_In, zrange_in. split.
      + intros [Hr Hv]. split; [lia |].
        apply prime_verdict_spec; [unfold in_u32; lia | exact Hv].
      + intros [Hr Hp]. split; [lia |].
        apply prime_verdict_spec; [unfold in_u32; lia | exact Hp]. }
  destruct Hbelow as [Hnd Hin].
  assert (Hc_below : counts_primes lo (hi - 1) (Z.of_nat (length below))).
  { exists below. split; [exact Hnd |]. split; [exact Hin | reflexivity]. }
  unfold count_primes.
  destruct (Z.leb_spec lo hi) as [Hle | Hgt].
  - destruct (is_prime_total hi ltac:(unfold in_u32; lia)) as [b Hb].
    rewrite Hb. cbn [bind].
    assert (Hv : prime_verdict hi = b).
    { unfold prime_verdict, outcome_is. rewrite Hb. destruct b; reflexivity. }
    pose proof (prime_verdict_spec hi ltac:(unfold in_u32; lia)) as Hspec.
    rewrite Hv in Hspec.
    rewrite (count_loop_spec hi fuel) by
      (try (unfold in_u32); try (destruct b; cbn [Z.b2z]); lia).
    fold below.
    assert (Hc_hi : counts_primes hi hi (Z.b2z b)).
    { exists (if b then [hi] else []). destruct b; cbn [Z.b2z length].
      - split; [repeat constructor; intros [] |]. split; [| reflexivity].
        intros x. cbn [In]. split.
        + intros [<- | []]. split; [lia | apply Hspec; reflexivity].
        + intros [Hx _]. left. lia.
      - split; [constructor |]. split; [| reflexivity].
        intros x. cbn [In]. split; [intros [] |].
        intros [Hx Hp]. assert (x = hi) by lia. subst x.
        apply Hspec in Hp. discriminate. }
    exists (Z.b2z b + Z.of_nat (length below)).
    split; [reflexivity |]. split; [| split; [| lia]].
    + exists (below ++ (if b then [hi] else [])). split; [| split].
      * apply NoDup_app; [exact Hnd | destruct b; repeat constructor; intros [] |].
        intros x Hx Hx'. apply Hin in Hx.
        destruct b; [destruct Hx' as [<- | []]; lia | destruct Hx'].
      * intros x. rewrite in_app_iff, Hin. split.
        -- intros [[Hr Hp] | Hx]; [split; [lia | exact Hp] |].
           destruct b; [destruct Hx as [<- | []] | destruct Hx].
           split; [lia | apply Hspec; reflexivity].
        -- intros [Hr Hp]. destruct (Z.eq_dec x hi) as [-> | Hne].
           ++ right. apply Hspec in Hp. rewrite Hp. left. reflexivity.
           ++ left. split; [lia | exact Hp].
      * rewrite length_app, Nat2Z.inj_add. destruct b; cbn [length Z.b2z]; lia.
    + intros _. exists (Z.b2z b), (Z.of_nat (length below)).
      split; [reflexivity |]. split; assumption.
  - cbn [bind Z.b2z].
    rewrite (count_loop_spec hi fuel) by (try (unfold in_u32); lia).
    replace (Z.to_nat (hi - lo)) with O by lia. cbn.
    exists 0. split; [reflexivity |]. split; [| split; [lia | reflexivity]].
    exists []. split; [constructor |]. split; [| reflexivity].
    intros x. cbn [In]. split; [intros [] | lia].
Qed.

Lemma count_primes_correct_witness :
  exists c,
    count_primes 101 0 100 = Ok c /\
    counts_primes 0 100 c /\
    (0 <= 100 ->
     exists c_hi c_below,
       c = c_hi + c_below /\ counts_primes 100 100 c_hi /\
       counts_primes 0 (100 - 1) c_below) /\
    (100 < 0 -> c = 0).
Proof. apply count_primes_correct; unfold in_u32; cbn; lia. Defined.

(** * Further properties of the code *)

(** ** powmod *)

(** X1: on unsigned 32-bit arguments [powmod] is undefined exactly when
    the modulus is 0 (the first statement reduces the base modulo [m]);
    with any other modulus it returns an unsigned 32-bit value, whatever
    the base and the exponent. *)
Theorem powmod_undefined_iff (base e m : Z) :
  in_u32 base -> in_u32 e -> in_u32 m ->
  (powmod base e m = Fault DivByZero <-> m = 0) /\
  (m <> 0 -> exists r, powmod base e m = Ok r /\ in_u32 r).
Proof.
  intros Hb He Hm. unfold in_u32 in Hm.
  destruct (Z.eq_dec m 0) as [-> | Hne].
  - split; [| intros H; contradiction].
    split; [reflexivity | intros _; reflexivity].
  - rewrite powmod_value by (assumption || lia). split.
    + split; [discriminate | contradiction].
    + intros _. eexists. split; [reflexivity |]. unfold in_u32.
      destruct (e =? 0); [lia |].
      pose proof (Z.mod_pos_bound (base ^ e) m). lia.
Qed.

Lemma powmod_undefined_iff_witness :
  (powmod 5 3 0 = Fault DivByZero <-> 0 = 0) /\
  (0 <> 0 -> exists r, powmod 5 3 0 = Ok r /\ in_u32 r).
Proof. apply powmod_undefined_iff; unfold in_u32; lia. Defined.

(** X2: the power of a sum of exponents is the modular product of the
    powers, computed with the program's own 64-bit multiplication
    (modulus above 1). *)
Theorem powmod_add_exponents (base e1 e2 m : Z) :
  in_u32 base -> in_u32 e1 -> in_u32 e2 -> in_u32 (e1 + e2) ->
  1 < m < 2 ^ 32 ->
  powmod base (e1 + e2) m =
  (r1 <- powmod base e1 m ;; r2 <- powmod base e2 m ;; mulmod r1 r2 m).
Proof.
  intros Hb H1 H2 H12 Hm.
  rewrite !powmod_value_gt1 by assumption. cbn [bind].
  assert (Hr : forall x, in_u32 (x mod m)).
  { intros x. unfold in_u32. pose proof (Z.mod_pos_bound x m). lia. }
  rewrite mulmod_exact by (try apply Hr; lia).
  unfold in_u32 in H1, H2.
  rewrite Z.pow_add_r by lia. rewrite <- Z.mul_mod by lia. reflexivity.
Qed.

Lemma powmod_add_exponents_witness :
  powmod 3 (5 + 6) 1000 =
  (r1 <- powmod 3 5 1000 ;; r2 <- powmod 3 6 1000 ;; mulmod r1 r2 1000).
Proof. apply powmod_add_exponents; unfold in_u32; lia. Defined.

(** X3: raising a result of [powmod] to a further power is [powmod] with
    the product of the exponents (modulus above 1): the squaring loop of
    [is_strong_probable_prime] relies on this with the exponent 2. *)
Theorem powmod_mul_exponents (base e1 e2 m : Z) :
  in_u32 base -> in_u32 e1 -> in_u32 e2 -> in_u32 (e1 * e2) ->
  1 < m < 2 ^ 32 ->
  (r <- powmod base e1 m ;; powmod r e2 m) = powmod base (e1 * e2) m.
Proof.
  intros Hb H1 H2 H12 Hm.
  rewrite (powmod_value_gt1 base e1), (powmod_value_gt1 base (e1 * e2))
    by assumption.
  cbn [bind]. rewrite powmod_value_gt1; try assumption.
  - unfold in_u32 in H1, H2.
    rewrite Z.mod_pow_l, Z.pow_mul_r by lia. reflexivity.
  - unfold in_u32. pose proof (Z.mod_pos_bound (base ^ e1) m). lia.
Qed.

Lemma powmod_mul_exponents_witness :
  (r <- powmod 3 5 1000 ;; powmod r 6 1000) = powmod 3 (5 * 6) 1000.
Proof. apply powmod_mul_exponents; unfold in_u32; lia. Defined.

(** X4: a call of [powmod] with an exponent below [2 ^ k] evaluates at
    most [2 * k] modular multiplications: 64 at most for a 32-bit
    exponent. *)
Theorem powmod_mults_bound (k : nat) (base e m : Z) :
  0 <= e < 2 ^ Z.of_nat k ->
  (length (powmod_mults base e m) <= 2 * k)%nat.
Proof.
  intros He. unfold powmod_mults.
  destruct (umod base m) as [power | f]; [| cbn; lia].
  apply powmod_loop_mults_length. exact He.
Qed.

Lemma powmod_mults_bound_witness :
  (length (powmod_mults 3 4294967295 1000) <= 2 * 32)%nat.
Proof. apply powmod_mults_bound. cbn. lia. Defined.

(** ** is_strong_probable_prime *)

(** X5: on unsigned 32-bit arguments [is_strong_probable_prime] is
    undefined exactly when the base is 0 and the candidate is odd and
    above 2 (the division [n % base]); in every other case it returns a
    verdict. *)
Theorem sprp_undefined_iff (base n : Z) :
  in_u32 base -> in_u32 n ->
  (is_strong_probable_prime base n = Fault DivByZero <->
   base = 0 /\ 2 < n /\ Z.odd n = true) /\
  (~ (base = 0 /\ 2 < n /\ Z.odd n = true) ->
   exists b, is_strong_probable_prime base n = Ok b).
Proof.
  intros Hb Hn.
  destruct (Z.eq_dec base 0) as [-> | Hne].
  - destruct (Z.le_gt_cases n 2) as [Hle | Hgt].
    + assert (E : is_strong_probable_prime 0 n = Ok (n =? 2)).
      { unfold is_strong_probable_prime.
        destruct (Z.leb_spec n 2); [reflexivity | lia]. }
      rewrite E. split.
      * split; [discriminate | intros [_ [H _]]; lia].
      * intros _. eexists; reflexivity.
    + destruct (Z.odd n) eqn:Hodd.
      * rewrite sprp_past_parity by assumption. split.
        -- split; [intros _; repeat split; assumption | intros _; reflexivity].
        -- intros H. exfalso. apply H. repeat split; assumption.
      * rewrite sprp_even by assumption. split.
        -- split; [discriminate | intros [_ [_ H]]; discriminate].
        -- intros _. eexists; reflexivity.
  - destruct (sprp_total base n Hb Hn) as [b E]; [unfold in_u32 in Hb; lia |].
    rewrite E. split.
    + split; [discriminate | intros [H _]; contradiction].
    + intros _. exists b. reflexivity.
Qed.

Lemma sprp_undefined_iff_witness :
  (is_strong_probable_prime 0 9 = Fault DivByZero <->
   0 = 0 /\ 2 < 9 /\ Z.odd 9 = true) /\
  (~ (0 = 0 /\ 2 < 9 /\ Z.odd 9 = true) ->
   exists b, is_strong_probable_prime 0 9 = Ok b).
Proof. apply sprp_undefined_iff; unfold in_u32; lia. Defined.

(** X6: the guard [n % base == 0] does not need the base to be prime.
    An odd candidate above 2 is accepted with itself as base, prime or
    not, and rejected with any other of its divisors as base, 1
    included. *)
Theorem sprp_divisor_base (a n : Z) :
  in_u32 n -> 2 < n -> Z.odd n = true -> 0 < a -> (a | n) ->
  is_strong_probable_prime n n = Ok true /\
  (a <> n -> is_strong_probable_prime a n = Ok false).
Proof.
  intros Hn H2 Hodd Ha Hdiv. split.
  - rewrite sprp_divisor, Z.eqb_refl;
      [reflexivity | lia | assumption | assumption | apply Z.divide_refl].
  - intros Hne. rewrite sprp_divisor by assumption.
    destruct (Z.eqb_spec n a); [congruence | reflexivity].
Qed.

Lemma sprp_divisor_base_witness :
  is_strong_probable_prime 9 9 = Ok true /\
  (1 <> 9 -> is_strong_probable_prime 1 9 = Ok false).
Proof.
  apply sprp_divisor_base; try (unfold in_u32; lia); try reflexivity.
  exists 9. reflexivity.
Defined.

(** X7: a prime above 2 passes the strong test for every base above 1
    that is not a multiple of it: a negative verdict for such a base
    proves the candidate composite. *)
Theorem prime_passes_every_base (a n : Z) :
  in_u32 a -> in_u32 n -> Z.prime n -> 2 < n -> 1 < a -> a mod n <> 0 ->
  is_strong_probable_prime a n = Ok true.
Proof.
  intros Ha Hu Hp Hn Ha1 Han.
  pose proof (prime_odd n Hp Hn) as Hodd.
  destruct (decomposition n Hu Hn Hodd) as [e [_ [Hdec [Hod [He Hd]]]]].
  assert (Hna : n mod a <> 0).
  { intros Hm. apply Z.mod_divide in Hm; [| lia].
    assert (Hle : a <= n) by (apply Z.divide_pos_le; [lia | exact Hm]).
    destruct (Z.eq_dec a n) as [-> | Hne].
    - apply Han. apply Z.mod_same. lia.
    - destruct Hp as [_ Hno]. apply (Hno a); [lia | exact Hm]. }
  destruct (sprp_decides a n Ha Hu ltac:(lia) Hn Hodd Hna _ e ltac:(lia) Hod Hdec)
    as [b [Hb Hiff]].
  rewrite Hb. f_equal. apply Hiff.
  apply prime_strong_criterion; try assumption; lia.
Qed.

Lemma prime_passes_every_base_witness :
  is_strong_probable_prime 10 7 = Ok true.
Proof.
  apply prime_passes_every_base; try (unfold in_u32; lia).
  - apply small_primeb_spec; [lia | reflexivity].
  - vm_compute. discriminate.
Defined.

(** X8: a candidate that passes the strong test past the divisibility
    guard passes the Fermat test for the same base:
    [base ^ (n - 1) mod n = 1]. *)
Theorem sprp_true_fermat (a n : Z) :
  in_u32 a -> in_u32 n -> 0 < a -> 2 < n -> n mod a <> 0 ->
  is_strong_probable_prime a n = Ok true ->
  a ^ (n - 1) mod n = 1.
Proof.
  intros Ha Hn Ha0 H2 Hna Hv.
  destruct (Z.odd n) eqn:Hodd;
    [| rewrite sprp_even in Hv by assumption; discriminate].
  destruct (decomposition n Hn H2 Hodd) as [e [_ [Hdec [Hod [He Hd]]]]].
  destruct (sprp_decides a n Ha Hn Ha0 H2 Hodd Hna _ e ltac:(lia) Hod Hdec)
    as [b [Hb Hiff]].
  rewrite Hb in Hv. injection Hv as ->.
  change (unit_power a n (n - 1)).
  apply (strong_criterion_fermat a n (Z.shiftr (u32 (n - 1)) e) e); try lia.
  apply Hiff. reflexivity.
Qed.

Lemma sprp_true_fermat_witness : 2 ^ (2047 - 1) mod 2047 = 1.
Proof.
  apply sprp_true_fermat; try (unfold in_u32; lia).
  - vm_compute. discriminate.
  - vm_compute. reflexivity.
Defined.

(** X9: a base congruent to 1 or to -1 modulo the candidate is useless:
    past the divisibility guard every odd candidate above 2 passes,
    prime or not. *)
Theorem sprp_trivial_base (a n : Z) :
  in_u32 a -> in_u32 n -> 0 < a -> 2 < n -> Z.odd n = true ->
  n mod a <> 0 -> a mod n = 1 \/ a mod n = n - 1 ->
  is_strong_probable_prime a n = Ok true.
Proof.
  intros Ha Hn Ha0 H2 Hodd Hna Hcong.
  destruct (decomposition n Hn H2 Hodd) as [e [_ [Hdec [Hod [He Hd]]]]].
  destruct (sprp_decides a n Ha Hn Ha0 H2 Hodd Hna _ e ltac:(lia) Hod Hdec)
    as [b [Hb Hiff]].
  rewrite Hb. f_equal. apply Hiff. destruct Hcong as [H1 | Hm1].
  - left. apply pow_of_one; lia.
  - right. exists 0. split; [lia |].
    rewrite Z.pow_0_r, Z.mul_1_r. apply pow_of_minus_one; try assumption; lia.
Qed.

Lemma sprp_trivial_base_witness : is_strong_probable_prime 8 9 = Ok true.
Proof.
  apply sprp_trivial_base; try (unfold in_u32; lia); try reflexivity.
  - vm_compute. discriminate.
  - right. reflexivity.
Defined.

(** X10: the cost of a call on an odd candidate above 2: with [e] the
    trailing-zero count of [n - 1], the exponentiation
    [powmod base ((n - 1) >> e) n] and the squaring loop together evaluate
    at most 63 modular multiplications. *)
Theorem sprp_mults_bound (a n : Z) :
  in_u32 n -> 2 < n -> Z.odd n = true ->
  exists e,
    builtin_ctzl (u32 (n - 1)) = Ok e /\
    (length (powmod_mults a (Z.shiftr (u32 (n - 1)) e) n) +
     length (squaring_mults a n) <= 63)%nat.
Proof.
  intros Hn H2 Hodd.
  destruct (decomposition n Hn H2 Hodd) as [e [Hctz [Hdec [Hod [He Hd]]]]].
  exists e. split; [exact Hctz |].
  set (d := Z.shiftr (u32 (n - 1)) e) in *.
  assert (Hdk : 0 <= d < 2 ^ Z.of_nat (Z.to_nat (32 - e))).
  { rewrite Z2Nat.id by lia. split; [lia |].
    apply (Z.mul_lt_mono_pos_r (2 ^ e)); [apply Z.pow_pos_nonneg; lia |].
    rewrite <- Z.pow_add_r by lia. replace (32 - e + e) with 32 by lia.
    unfold in_u32 in Hn. lia. }
  assert (Hpm : (length (powmod_mults a d n) <= 2 * Z.to_nat (32 - e))%nat).
  { unfold powmod_mults. destruct (umod a n) as [power | f]; [| cbn; lia].
    apply powmod_loop_mults_length. exact Hdk. }
  assert (Hsq : (length (squaring_mults a n) <= Z.to_nat e)%nat).
  { unfold squaring_mults.
    destruct (n <=? 2); [cbn; lia |].
    destruct (Z.land n 1 =? 0); [cbn; lia |].
    destruct (umod n a) as [r | f]; [| cbn; lia].
    destruct (r =? 0); [cbn; lia |].
    rewrite Hctz. fold d.
    destruct (powmod a d n) as [power | f]; [| cbn; lia].
    destruct (power =? 1); [cbn; lia |].
    apply sprp_loop_mults_length. }
  lia.
Qed.

Lemma sprp_mults_bound_witness :
  exists e,
    builtin_ctzl (u32 (4294967295 - 1)) = Ok e /\
    (length (powmod_mults 2 (Z.shiftr (u32 (4294967295 - 1)) e) 4294967295) +
     length (squaring_mults 2 4294967295) <= 63)%nat.
Proof. apply sprp_mults_bound; try (unfold in_u32; lia); reflexivity. Defined.

(** ** is_prime *)

(** X11: the trial-division loop of [is_prime], on an odd candidate
    above 2. It returns true exactly for the primes up to 61, and falls
    through to the strong tests exactly for the candidates above 61 that
    no odd number from 3 to 61 divides; in the remaining case it returns
    false. *)
Theorem trial_loop_verdict (n : Z) :
  in_u32 n -> 2 < n -> Z.odd n = true ->
  exists r,
    trial_loop trial_fuel 3 n = Ok r /\
    (r = Some true <-> n <= 61 /\ Z.prime n) /\
    (r = None <->
     61 < n /\ forall j, 3 <= j <= 61 -> Z.odd j = true -> n mod j <> 0).
Proof.
  intros Hu H2 Hodd. destruct (Z.le_gt_cases n 61) as [Hle | Hgt].
  - exists (Some (small_primeb n)).
    split; [apply trial_loop_small; [lia | exact Hodd] |]. split.
    + rewrite <- (small_primeb_spec n) by lia. split.
      * intros H. injection H as H. split; [lia | exact H].
      * intros [_ H]. rewrite H. reflexivity.
    + split; [discriminate | intros [H _]; lia].
  - destruct (trial_loop_large trial_fuel 3 n Hgt ltac:(lia) ltac:(cbn; lia))
      as [[Hr Hk] | [Hr [j [Hj Hm]]]].
    + exists None. split; [exact Hr |]. split.
      * split; [discriminate | intros [H _]; lia].
      * split; [| reflexivity]. intros _. split; [exact Hgt |].
        intros j Hj Hoj. apply Z.odd_spec in Hoj. destruct Hoj as [k Hk'].
        replace j with (3 + 2 * (k - 1)) by lia. apply Hk; lia.
    + exists (Some false). split; [exact Hr |]. split.
      * split; [discriminate | intros [H _]; lia].
      * split; [discriminate |]. intros [_ Hall]. exfalso.
        apply (Hall j Hj); [| exact Hm].
        apply (odd_divisor n); [exact Hodd |].
        apply Z.mod_divide; [lia | exact Hm].
Qed.

Lemma trial_loop_verdict_witness :
  exists r,
    trial_loop trial_fuel 3 4087 = Ok r /\
    (r = Some true <-> 4087 <= 61 /\ Z.prime 4087) /\
    (r = None <->
     61 < 4087 /\
     forall j, 3 <= j <= 61 -> Z.odd j = true -> 4087 mod j <> 0).
Proof. apply trial_loop_verdict; try (unfold in_u32; lia); reflexivity. Defined.

(** X12: above 2, [is_prime] accepts exactly the candidates that pass
    [is_strong_probable_prime] for every base between 1 and the
    candidate: on 32-bit inputs the trial divisions and the three fixed
    bases 2, 7 and 61 decide what all the bases together would. *)
Theorem is_prime_iff_every_base (n : Z) :
  in_u32 n -> 2 < n ->
  (is_prime n = Ok true <->
   forall a, 1 < a < n -> is_strong_probable_prime a n = Ok true).
Proof.
  intros Hu H2. split.
  - intros Hv a Ha. apply sprp_prime; try assumption.
    apply is_prime_sound; assumption.
  - intros Hall. apply is_prime_complete; [exact Hu |].
    split; [lia |]. intros k Hk Hdiv.
    specialize (Hall k Hk).
    destruct (Z.odd n) eqn:Hodd.
    + rewrite sprp_divisor in Hall by (assumption || lia).
      destruct (Z.eqb_spec n k); [lia | discriminate].
    + rewrite sprp_even in Hall by assumption. discriminate.
Qed.

Lemma is_prime_iff_every_base_witness :
  is_prime 97 = Ok true <->
  forall a, 1 < a < 97 -> is_strong_probable_prime a 97 = Ok true.
Proof. apply is_prime_iff_every_base; unfold in_u32; lia. Defined.

(** ** main *)

(** X13: the count of a range is the sum of the counts of its two parts:
    for [lo < mid <= hi] the driver returns on [lo, hi] what it returns
    on [lo, mid - 1] plus what it returns on [mid, hi]. *)
Theorem count_primes_split (fuel : nat) (lo mid hi : Z) :
  in_u32 lo -> in_u32 hi -> lo < mid <= hi -> hi - lo < Z.of_nat fuel ->
  exists c1 c2,
    count_primes fuel lo (mid - 1) = Ok c1 /\
    count_primes fuel mid hi = Ok c2 /\
    count_primes fuel lo hi = Ok (c1 + c2).
Proof.
  intros Hlo Hhi Hm Hf. unfold in_u32 in Hlo, Hhi.
  rewrite (count_primes_value fuel lo (mid - 1)),
          (count_primes_value fuel mid hi),
          (count_primes_value fuel lo hi)
    by (try (unfold in_u32); lia).
  do 2 eexists. split; [reflexivity |]. split; [reflexivity |]. f_equal.
  replace (Z.to_nat (hi - lo))
    with (Z.to_nat (mid - 1 - lo) + S (Z.to_nat (hi - mid)))%nat by lia.
  rewrite primes_from_app, primes_from_succ, !length_app, !Nat2Z.inj_add.
  rewrite Z2Nat.id by lia.
  replace (lo + (mid - 1 - lo)) with (mid - 1) by lia.
  replace (mid - 1 + 1) with mid by lia.
  destruct (prime_verdict (mid - 1)); cbn [length Z.b2z Z.of_nat]; lia.
Qed.

Lemma count_primes_split_witness :
  exists c1 c2,
    count_primes 101 0 (50 - 1) = Ok c1 /\
    count_primes 101 50 100 = Ok c2 /\
    count_primes 101 0 100 = Ok (c1 + c2).
Proof. apply count_primes_split; unfold in_u32; cbn; lia. Defined.

(** X14: with its bounds [LO = 0] and [HI = 100000000], [main] passes to
    [printf] the number of primes below [HI]: the bound itself, which the
    first statement tests, is not prime and adds nothing, and the 32-bit
    counter does not wrap. *)
Theorem main_counts_primes_below_HI (fuel : nat) :
  HI - LO < Z.of_nat fuel ->
  exists c, main fuel = Ok c /\ counts_primes 0 (HI - 1) c /\ 0 <= c < HI.
Proof.
  intros Hf.
  assert (H0 : prime_verdict LO = false) by (vm_compute; reflexivity).
  assert (Hv : prime_verdict HI = false) by (vm_compute; reflexivity).
  destruct (count_primes_open fuel LO HI) as [c [E [Hc Hb]]];
    try assumption; try (unfold in_u32, HI, LO; lia).
  exists c. split; [exact E |]. split; [exact Hc |].
  unfold LO in Hb. lia.
Qed.

Lemma main_counts_primes_below_HI_witness :
  exists c,
    main (Z.to_nat 100000001) = Ok c /\
    counts_primes 0 (HI - 1) c /\ 0 <= c < HI.
Proof. apply main_counts_primes_below_HI. unfold HI, LO. lia. Defined.
